(** * color-blind: a shallow embedding of [src/app.tsx]

    The game generates a random outline ([makeRandomShape]), lets the player
    colour it ([canvas_draw], [drawPoints]) and scores the result by comparing
    pixel buffers ([end_game]).

    Conventions of the embedding.
    - A JavaScript [number] that holds a coordinate or a length is an exact
      rational ([Q]); [===] on numbers is [Qeq_bool], [<] is [Qltb].  The one
      division whose divisor can be zero, the score, goes through [jsdiv],
      which produces the non-finite values of JavaScript.  The rounding of
      doubles is left out there.
    - The segment test [intersects], whose answer on segments that touch is
      decided by rounding, is also given on the doubles themselves
      ([intersects_binary64], over the binary64 numbers [float] with
      rounding to nearest), and its own properties are proved of that
      version.
    - Integers that are only counted or subtracted (pixel tallies, clock
      readings, channel values) are [Z].
    - An array is a [list]; an array used as a stack (push/pop at its end) is a
      list whose head is the array's last element.
    - An object compared by reference carries an [oid], given at allocation.
    - [Math.random], the allocation counter and what the browser answers
      (clock, device pixel ratio, pixel read-back) are explicit inputs. *)

From Stdlib Require Import Floats.
From Stdlib Require Import String.
From Stdlib Require Import QArith Qround Qminmax Qabs ZArith List Lia Lqa Bool.
From Stdlib Require Import Permutation Sorted PeanoNat.
Import ListNotations.
Open Scope Q_scope.

(** ** Numbers *)

Definition Qltb (a b : Q) : bool := negb (Qle_bool b a).

(** The result of a JavaScript division of two finite numbers. *)
Inductive jsnum : Type :=
| Fin (q : Q)
| PosInfinity
| NegInfinity
| NaN.

Definition jsdiv (n d : Q) : jsnum :=
  if Qeq_bool d 0 then
    if Qeq_bool n 0 then NaN
    else if Qltb 0 n then PosInfinity else NegInfinity
  else Fin (n / d).

(** [Number.prototype.toFixed] on a value that is not finite returns its name;
    the decimal rendering of a finite double is outside the rational model. *)
Definition toFixedNonFinite (n : jsnum) : option string :=
  match n with
  | Fin _ => None
  | PosInfinity => Some "Infinity"%string
  | NegInfinity => Some "-Infinity"%string
  | NaN => Some "NaN"%string
  end.

(** ** Data *)

Record Point : Type := mkPoint { oid : nat; x : Q; y : Q }.

Record Size : Type := mkSize { width : Q; height : Q }.

Record Shape : Type := mkShape { points : list Point }.

(** ** Geometry kernel *)

Definition pointComparator (a b : Point) : Z :=
  if Qltb (x a) (x b) then (-1)%Z
  else if Qltb (x b) (x a) then 1%Z
  else if Qltb (y a) (y b) then (-1)%Z
  else if Qltb (y b) (y a) then 1%Z
  else 0%Z.

(** [Array.prototype.sort(cmp)]: the stable sort by [cmp]. *)
Fixpoint sortInsert {A : Type} (cmp : A -> A -> Z) (a : A) (l : list A) : list A :=
  match l with
  | [] => [a]
  | b :: l' => if (cmp a b <=? 0)%Z then a :: l else b :: sortInsert cmp a l'
  end.

Definition arraySort {A : Type} (cmp : A -> A -> Z) (l : list A) : list A :=
  fold_right (sortInsert cmp) [] l.

(** The test of both [while] loops of [makeHullPresorted]:
    [(q.x - r.x) * (p.y - r.y) >= (q.y - r.y) * (p.x - r.x)]. *)
Definition hullRejects (r q p : Point) : bool :=
  Qle_bool ((y q - y r) * (x p - x r)) ((x q - x r) * (y p - y r)).

(** The inner [while] loop; the stack's head is the array's last element. *)
Fixpoint hullPop (p : Point) (stack : list Point) : list Point :=
  match stack with
  | q :: ((r :: _) as below) =>
      if hullRejects r q p then hullPop p below else stack
  | _ => stack
  end.

(** One [for] loop of [makeHullPresorted] over the points in visiting order. *)
Definition hullScan (visited : list Point) : list Point :=
  fold_left (fun stack p => p :: hullPop p stack) visited [].

Definition makeHullPresorted (points : list Point) : list Point :=
  if (length points <=? 1)%nat then points
  else
    let upperHull := rev (tl (hullScan points)) in
    let lowerHull := rev (tl (hullScan (rev points))) in
    match upperHull, lowerHull with
    | [u], [l] =>
        if Qeq_bool (x u) (x l) && Qeq_bool (y u) (y l)
        then upperHull else upperHull ++ lowerHull
    | _, _ => upperHull ++ lowerHull
    end.

(** [makeLines]: line [i] joins [points[i]] to [rest[i]], that is to
    [points[i + 1]]; for the last line [rest[i]] is undefined and the closing
    assignment [lines[points.length - 1][1] = start] replaces it.  On an empty
    array that assignment reads [lines[-1]] and throws. *)
Definition makeLines (points : list Point) : option (list (Point * Point)) :=
  match points with
  | [] => None
  | start :: rest =>
      Some (map (fun i =>
                   (nth i points start,
                    if (i =? length points - 1)%nat then start
                    else nth i rest start))
                (seq 0 (length points)))
  end.

Definition nearBy (a b : Point) (range : Q) : bool :=
  let distX := Qabs (x b - x a) in
  let distY := Qabs (y b - y a) in
  Qltb distY range && Qltb distX range.

(** The segment test evaluated without rounding: the test with which the
    shape generator below is stated. *)
Definition intersects (a b c d p q r s : Q) : bool :=
  let det := (c - a) * (s - q) - (r - p) * (d - b) in
  if Qeq_bool det 0 then false
  else
    let lambda := ((s - q) * (r - a) + (p - r) * (s - b)) / det in
    let gamma := ((b - d) * (r - a) + (c - a) * (s - b)) / det in
    Qltb 0 lambda && Qltb lambda 1 && Qltb 0 gamma && Qltb gamma 1.


Definition lineIntersects (line l : Point * Point) : bool :=
  intersects (x (fst line)) (y (fst line)) (x (snd line)) (y (snd line))
             (x (fst l)) (y (fst l)) (x (snd l)) (y (snd l)).

Definition getLineWidthForCanvasSize (canvasViewSize : Size) : Q :=
  let min := Qmin (width canvasViewSize) (height canvasViewSize) in
  if Qltb 1000 min then 20
  else if Qltb 500 min then 15
  else 10.

(** ** The world outside the pure code

    [samples] is the sequence of results of [Math.random()], [randomIndex]
    the number of calls made so far, [nextOid] the allocation counter. *)

Record World : Type := mkWorld {
  samples : nat -> Q;
  randomIndex : nat;
  nextOid : nat
}.

Inductive Result (A : Type) : Type :=
| Ok (a : A)
| TypeError
| OutOfFuel.

Arguments Ok {A} a.
Arguments TypeError {A}.
Arguments OutOfFuel {A}.

Definition M (A : Type) : Type := World -> Result (A * World).

Definition ret {A : Type} (a : A) : M A := fun w => Ok (a, w).

Definition bind {A B : Type} (c : M A) (k : A -> M B) : M B :=
  fun w =>
    match c w with
    | Ok (a, w') => k a w'
    | TypeError => TypeError
    | OutOfFuel => OutOfFuel
    end.

Notation "v <- c ;; k" := (bind c (fun v => k))
  (at level 61, c at next level, right associativity).

Definition throwTypeError {A : Type} : M A := fun _ => TypeError.

Definition Math_random : M Q :=
  fun w => Ok (samples w (randomIndex w),
               mkWorld (samples w) (S (randomIndex w)) (nextOid w)).

(** The object literal [{ x, y }]: a fresh object. *)
Definition newPoint (px py : Q) : M Point :=
  fun w => Ok (mkPoint (nextOid w) px py,
               mkWorld (samples w) (randomIndex w) (S (nextOid w))).

(** [for (let i = 0; i < count; i++) acc.push(c)] *)
Fixpoint pushTimes {A : Type} (count : nat) (c : M A) : M (list A) :=
  match count with
  | O => ret []
  | S count' => a <- c ;; rest <- pushTimes count' c ;; ret (a :: rest)
  end.

Definition Math_floor (q : Q) : Q := inject_Z (Qfloor q).

(** ** Shape generator *)

Definition makeRandomPoint (viewPort : Size) : M Point :=
  rx <- Math_random ;;
  ry <- Math_random ;;
  newPoint (Math_floor (rx * (width viewPort - 20)) + 10)
           (Math_floor (ry * (height viewPort - 20)) + 10).

(** [array.splice(start, 0, item)] for an integral [start]; a negative
    [start] counts from the end, and both ends clamp. *)
Definition splice {A : Type} (start : Z) (item : A) (l : list A) : list A :=
  let at_ :=
    if (start <? 0)%Z then Z.to_nat (Z.max (Z.of_nat (length l) + start) 0)
    else Z.to_nat start in
  firstn at_ l ++ item :: skipn at_ l.

Definition lengthQ {A : Type} (l : list A) : Q := inject_Z (Z.of_nat (length l)).

Definition anyLinesIntersect (lines : list (Point * Point)) : bool :=
  existsb (fun line => existsb (fun l => lineIntersects line l) lines) lines.

Definition anyPointsNearBy (points : list Point) (range : Q) : bool :=
  existsb (fun a =>
             existsb (fun b => negb (oid a =? oid b)%nat && nearBy a b range)
                     points)
          points.

(** One pass through the body of [makeRandomShape]: [Some] is the shape it
    returns, [None] one of its two [return makeRandomShape(viewPort)]. *)
Definition shapeAttempt (viewPort : Size) : M (option Shape) :=
  rc <- Math_random ;;
  let count := (10 + Qfloor (rc * 6))%Z in
  randomPoints <- pushTimes (Z.to_nat count) (makeRandomPoint viewPort) ;;
  let hull := makeHullPresorted (arraySort pointComparator randomPoints) in
  let innerView := mkSize (width viewPort / 4) (height viewPort / 4) in
  p0 <- makeRandomPoint innerView ;;
  p1 <- makeRandomPoint innerView ;;
  m0 <- newPoint (x p0 + width innerView * (3 # 4))
                 (y p0 + height innerView * (3 # 4)) ;;
  m1 <- newPoint (x p1 + width innerView * (5 # 4))
                 (y p1 + height innerView * (5 # 4)) ;;
  match arraySort pointComparator [m0; m1] with
  | [top; bottom] =>
      ra <- Math_random ;;
      let a := Qfloor (ra * (lengthQ hull / 2)) in
      rb <- Math_random ;;
      let b := Qfloor (rb * (lengthQ hull / 2) + lengthQ hull / 2) in
      let points := splice b bottom (splice a top hull) in
      match makeLines points with
      | None => throwTypeError
      | Some lines =>
          if anyLinesIntersect lines then ret None
          else
            let range := Qmin (width viewPort) (height viewPort) / 10 in
            if anyPointsNearBy points range then ret None
            else ret (Some (mkShape points))
      end
  | _ => throwTypeError
  end.

(** [fuel] bounds the number of passes; the source restarts without bound. *)
Fixpoint makeRandomShape (fuel : nat) (viewPort : Size) : M Shape :=
  match fuel with
  | O => fun _ => OutOfFuel
  | S fuel' =>
      attempt <- shapeAttempt viewPort ;;
      match attempt with
      | Some shape => ret shape
      | None => makeRandomShape fuel' viewPort
      end
  end.

Definition randomBetween (min max : Z) : M Z :=
  r <- Math_random ;;
  ret (min + Qfloor (r * inject_Z (max - min + 1)))%Z.

Inductive Color : Type :=
| ColorHex (code : string)
| ColorRgb (r g b : Z).

Definition makeRandomColor : M Color :=
  r <- randomBetween 0 255 ;;
  g <- randomBetween 0 255 ;;
  b <- randomBetween 0 255 ;;
  ret (ColorRgb r g b).

(** ** Raster renderer: the calls made on a 2D context *)

Inductive CanvasOp : Type :=
| ctx_clearRect (left top w h : Q)
| ctx_lineWidth (w : Q)
| ctx_lineCap (cap : string)
| ctx_lineJoin (join : string)
| ctx_strokeStyle (c : Color)
| ctx_fillStyle (c : Color)
| ctx_beginPath
| ctx_moveTo (px py : Q)
| ctx_quadraticCurveTo (cpx cpy px py : Q)
| ctx_arcFullCircle (cx cy radius : Q)
| ctx_closePath
| ctx_fill
| ctx_stroke.

(** The body of the [for] loop of [drawShapeToCanvas]; [closed] is
    [[start, ...rest, start]] and [points[i + 1] || start] falls back to
    [start] past the end. *)
Definition shapeSegment (start : Point) (closed : list Point) (i : nat) : CanvasOp :=
  let cur := nth i closed start in
  let nextPoint := match nth_error closed (i + 1) with
                   | Some p => p
                   | None => start
                   end in
  ctx_quadraticCurveTo (x cur) (y cur)
                       ((x cur + x nextPoint) / 2) ((y cur + y nextPoint) / 2).

(** [None]: [start] is undefined and [start.x] throws. *)
Definition drawShapeToCanvas (canvasViewSize : Size) (shape : Shape)
    (color : Color) (fill clear : bool) : option (list CanvasOp) :=
  match points shape with
  | [] => None
  | start :: rest =>
      let closed := start :: rest ++ [start] in
      Some ((if clear
             then [ctx_clearRect 0 0 (width canvasViewSize) (height canvasViewSize)]
             else [])
            ++ [ctx_lineWidth (getLineWidthForCanvasSize canvasViewSize);
                ctx_lineCap "round"; ctx_strokeStyle color; ctx_fillStyle color;
                ctx_beginPath; ctx_moveTo (x start) (y start)]
            ++ map (shapeSegment start closed) (seq 0 (length closed))
            ++ [ctx_stroke]
            ++ (if fill then [ctx_fill] else []))
  end.

(** The smoothing loop of [drawPoints]: [points[i]] and [points[i + 1]] are
    read for each [i]; an undefined element makes the read of its [x] throw. *)
Fixpoint smoothSegments (points : list Point) (indices : list nat)
  : option (list CanvasOp) :=
  match indices with
  | [] => Some []
  | i :: indices' =>
      match nth_error points i, nth_error points (i + 1) with
      | Some pi, Some pj =>
          option_map
            (cons (ctx_quadraticCurveTo (x pi) (y pi)
                                        ((x pi + x pj) / 2) ((y pi + y pj) / 2)))
            (smoothSegments points indices')
      | _, _ => None
      end
  end.

(** [drawPoints(ctx, points)] on a context whose [lineWidth] is [lineWidth];
    [None] is a thrown [TypeError]. *)
Definition drawPoints (lineWidth : Q) (points : list Point) : option (list CanvasOp) :=
  let style := [ctx_fillStyle (ColorHex "#aaa"); ctx_strokeStyle (ColorHex "#aaa");
                ctx_lineJoin "round"; ctx_lineCap "round"] in
  if (length points <? 3)%nat then
    match nth_error points 0 with
    | None => None
    | Some b =>
        Some (style ++ [ctx_beginPath; ctx_arcFullCircle (x b) (y b) (lineWidth / 2);
                        ctx_closePath; ctx_fill])
    end
  else
    match nth_error points 0 with
    | None => None
    | Some p0 =>
        (* for (i = 1; i < points.length - 2; i++); afterwards i = length - 2 *)
        let i := (length points - 2)%nat in
        match smoothSegments points (seq 1 (length points - 3)),
              nth_error points i, nth_error points (i + 1) with
        | Some curves, Some pi, Some pj =>
            Some (style ++ [ctx_beginPath; ctx_moveTo (x p0) (y p0)] ++ curves
                  ++ [ctx_quadraticCurveTo (x pi) (y pi) (x pj) (y pj); ctx_stroke])
        | _, _, _ => None
        end
    end.

(** ** Scoring engine: the two counting loops of [end_game] *)

(** [for (let i = 0; i < len; i += 4) s = body(i, s)]; [n] bounds the number
    of rounds and [len] rounds always suffice. *)
Fixpoint forStep4 {T : Type} (n : nat) (i len : nat) (body : nat -> T -> T) (s : T) : T :=
  match n with
  | O => s
  | S n' => if (i <? len)%nat then forStep4 n' (i + 4) len body (body i s) else s
  end.

Definition gray : Z := 170.

Definition channelIs (data : list Z) (i : nat) (v : Z) : bool :=
  match nth_error data i with
  | Some c => (c =? v)%Z
  | None => false
  end.

Definition countOverfilled (pixels : list Z) : Z :=
  forStep4 (length pixels) 0 (length pixels)
           (fun i pixelsOverfilled =>
              if channelIs pixels i gray then (pixelsOverfilled + 1)%Z
              else pixelsOverfilled)
           0%Z.

(** Returns [(pixelsFilled, pixelsUnderFilled)]. *)
Definition countFilled (drawData fillData : list Z) : Z * Z :=
  forStep4 (length fillData) 0 (length fillData)
           (fun i tally =>
              if negb (channelIs fillData i 255) then tally
              else if channelIs drawData i gray
                   then ((fst tally + 1)%Z, snd tally)
                   else (fst tally, (snd tally + 1)%Z))
           (0%Z, 0%Z).

Definition scoreOf (pixelsFilled pixelsOverfilled pixelsUnderFilled : Z) : jsnum :=
  jsdiv (inject_Z (100 * pixelsFilled - pixelsOverfilled))
        (inject_Z (pixelsFilled + pixelsUnderFilled)).

(** ** Game session state machine *)

Inductive Page : Type := home | game | game_over.

Definition CanvasRenderingContext2D : Type := nat.

(** A canvas element: its identity and what [getContext('2d')] answers
    ([None] is [null]). *)
Record HTMLCanvasElement : Type := mkCanvas {
  elementId : nat;
  getContext2d : option CanvasRenderingContext2D
}.

Record Model : Type := mkModel {
  page : Page;
  homeColor : Color;
  shape : Shape;
  windowSize : Size;
  canvasSize : Size;
  canvasViewSize : Size;
  shapeDrawAreaSize : Size;
  foregroundCanvasElement : option HTMLCanvasElement;
  backgroundCanvasElement : option HTMLCanvasElement;
  offscreenCanvasElement : HTMLCanvasElement;
  foregroundCtx : option CanvasRenderingContext2D;
  backgroundCtx : option CanvasRenderingContext2D;
  gameStart : Z;
  gameLength : Z;
  drawPointBuffer : list Point;
  lastDrawnAt : Z;
  pixelsFilled : Z;
  pixelsOverfilled : Z;
  pixelsUnderFilled : Z;
  finalUrl : option string;
  scoreExplainerOpen : bool
}.

Inductive CanvasKind : Type := foreground | background.

Inductive Msg : Type :=
| start_game
| end_game
| canvas_mounted (kind : CanvasKind) (canvasElement : HTMLCanvasElement)
| canvas_render
| canvas_draw (windowX windowY : Q)
| canvas_draw_end
| window_resize (w h : Q)
| home_carousel_tick
| game_tick
| open_score_explainer
| dismiss_score_explainer.

(** What the browser answers during one [update]: the clock, the device
    pixel ratio, the background canvas' bounding rectangle, the three pixel
    read-backs of [end_game] and the encoding of the composite image, which
    depends on the score and the seconds painted onto it.  [attempts] is the
    fuel handed to [makeRandomShape]. *)
Record Env : Type := mkEnv {
  now : Z;
  devicePixelRatio : Q;
  rectLeft : Q;
  rectTop : Q;
  overlaidPixels : list Z;
  drawData : list Z;
  fillData : list Z;
  toDataURL : jsnum -> Z -> string;
  attempts : nat
}.

(** The closures returned as the second component of [update]'s result, with
    the values they capture. *)
Inductive Effect : Type :=
| StartGameEffect (backgroundCtx : option CanvasRenderingContext2D)
                  (canvasViewSize : Size) (newModel : Model)
| DrawEffect (backgroundCtx : CanvasRenderingContext2D) (canvasViewSize : Size)
             (drawPointBuffer : list Point) (newPoint : Point)
| DrawEndEffect (backgroundCtx : CanvasRenderingContext2D) (canvasViewSize : Size)
                (drawPointBuffer : list Point)
| CarouselEffect (foregroundCtx : CanvasRenderingContext2D) (canvasViewSize : Size)
                 (shape : Shape) (homeColor : Color).

(** The argument lists of the [drawPoints] calls an effect makes. *)
Definition drawPointsArguments (e : Effect) : list (list Point) :=
  match e with
  | DrawEffect _ _ buffer newPoint => [buffer ++ [newPoint]]
  | DrawEndEffect _ _ buffer => [buffer]
  | _ => []
  end.

Definition onContext (ctx : CanvasRenderingContext2D) (ops : option (list CanvasOp))
  : option (list (CanvasRenderingContext2D * CanvasOp)) :=
  option_map (map (pair ctx)) ops.

(** Running an effect: the calls it makes, or [None] when it throws. *)
Definition runEffect (e : Effect) : option (list (CanvasRenderingContext2D * CanvasOp)) :=
  match e with
  | StartGameEffect bg size newModel =>
      let cleared :=
        match bg with
        | Some ctx => [(ctx, ctx_clearRect 0 0 (width size) (height size))]
        | None => []
        end in
      match foregroundCtx newModel with
      | None => None
      | Some fg =>
          option_map (app cleared)
            (onContext fg (drawShapeToCanvas (canvasViewSize newModel) (shape newModel)
                                             (homeColor newModel) false true))
      end
  | DrawEffect ctx size buffer newPoint =>
      let lineWidth := 2 * getLineWidthForCanvasSize size in
      onContext ctx (option_map (cons (ctx_lineWidth lineWidth))
                                (drawPoints lineWidth (buffer ++ [newPoint])))
  | DrawEndEffect ctx size buffer =>
      let lineWidth := 2 * getLineWidthForCanvasSize size in
      onContext ctx (option_map (cons (ctx_lineWidth lineWidth))
                                (drawPoints lineWidth buffer))
  | CarouselEffect ctx size shape color =>
      onContext ctx (drawShapeToCanvas size shape color false true)
  end.

Definition init : Model :=
  {| page := home;
     homeColor := ColorHex "#000";
     shape := mkShape [];
     windowSize := mkSize 0 0;
     canvasSize := mkSize 0 0;
     canvasViewSize := mkSize 0 0;
     shapeDrawAreaSize := mkSize 0 0;
     foregroundCanvasElement := None;
     backgroundCanvasElement := None;
     offscreenCanvasElement := mkCanvas 0 (Some 0%nat);
     foregroundCtx := None;
     backgroundCtx := None;
     gameStart := 0;
     gameLength := 0;
     pixelsFilled := 0;
     pixelsOverfilled := 0;
     pixelsUnderFilled := 0;
     finalUrl := None;
     drawPointBuffer := [];
     lastDrawnAt := 0;
     scoreExplainerOpen := false |}.

(** [{ ...model, field: v }], one function per field that [update] writes. *)

Definition with_page (v : Page) (m : Model) : Model :=
  mkModel v (homeColor m) (shape m) (windowSize m) (canvasSize m)
          (canvasViewSize m) (shapeDrawAreaSize m) (foregroundCanvasElement m)
          (backgroundCanvasElement m) (offscreenCanvasElement m)
          (foregroundCtx m) (backgroundCtx m) (gameStart m) (gameLength m)
          (drawPointBuffer m) (lastDrawnAt m) (pixelsFilled m)
          (pixelsOverfilled m) (pixelsUnderFilled m) (finalUrl m)
          (scoreExplainerOpen m).

Definition with_homeColor (v : Color) (m : Model) : Model :=
  mkModel (page m) v (shape m) (windowSize m) (canvasSize m)
          (canvasViewSize m) (shapeDrawAreaSize m) (foregroundCanvasElement m)
          (backgroundCanvasElement m) (offscreenCanvasElement m)
          (foregroundCtx m) (backgroundCtx m) (gameStart m) (gameLength m)
          (drawPointBuffer m) (lastDrawnAt m) (pixelsFilled m)
          (pixelsOverfilled m) (pixelsUnderFilled m) (finalUrl m)
          (scoreExplainerOpen m).

Definition with_shape (v : Shape) (m : Model) : Model :=
  mkModel (page m) (homeColor m) v (windowSize m) (canvasSize m)
          (canvasViewSize m) (shapeDrawAreaSize m) (foregroundCanvasElement m)
          (backgroundCanvasElement m) (offscreenCanvasElement m)
          (foregroundCtx m) (backgroundCtx m) (gameStart m) (gameLength m)
          (drawPointBuffer m) (lastDrawnAt m) (pixelsFilled m)
          (pixelsOverfilled m) (pixelsUnderFilled m) (finalUrl m)
          (scoreExplainerOpen m).

Definition with_windowSize (v : Size) (m : Model) : Model :=
  mkModel (page m) (homeColor m) (shape m) v (canvasSize m) (canvasViewSize m)
          (shapeDrawAreaSize m) (foregroundCanvasElement m)
          (backgroundCanvasElement m) (offscreenCanvasElement m)
          (foregroundCtx m) (backgroundCtx m) (gameStart m) (gameLength m)
          (drawPointBuffer m) (lastDrawnAt m) (pixelsFilled m)
          (pixelsOverfilled m) (pixelsUnderFilled m) (finalUrl m)
          (scoreExplainerOpen m).

Definition with_canvasSize (v : Size) (m : Model) : Model :=
  mkModel (page m) (homeColor m) (shape m) (windowSize m) v (canvasViewSize m)
          (shapeDrawAreaSize m) (foregroundCanvasElement m)
          (backgroundCanvasElement m) (offscreenCanvasElement m)
          (foregroundCtx m) (backgroundCtx m) (gameStart m) (gameLength m)
          (drawPointBuffer m) (lastDrawnAt m) (pixelsFilled m)
          (pixelsOverfilled m) (pixelsUnderFilled m) (finalUrl m)
          (scoreExplainerOpen m).

Definition with_canvasViewSize (v : Size) (m : Model) : Model :=
  mkModel (page m) (homeColor m) (shape m) (windowSize m) (canvasSize m) v
          (shapeDrawAreaSize m) (foregroundCanvasElement m)
          (backgroundCanvasElement m) (offscreenCanvasElement m)
          (foregroundCtx m) (backgroundCtx m) (gameStart m) (gameLength m)
          (drawPointBuffer m) (lastDrawnAt m) (pixelsFilled m)
          (pixelsOverfilled m) (pixelsUnderFilled m) (finalUrl m)
          (scoreExplainerOpen m).

Definition with_shapeDrawAreaSize (v : Size) (m : Model) : Model :=
  mkModel (page m) (homeColor m) (shape m) (windowSize m) (canvasSize m)
          (canvasViewSize m) v (foregroundCanvasElement m)
          (backgroundCanvasElement m) (offscreenCanvasElement m)
          (foregroundCtx m) (backgroundCtx m) (gameStart m) (gameLength m)
          (drawPointBuffer m) (lastDrawnAt m) (pixelsFilled m)
          (pixelsOverfilled m) (pixelsUnderFilled m) (finalUrl m)
          (scoreExplainerOpen m).

Definition with_foregroundCanvasElement (v : option HTMLCanvasElement) (m : Model) : Model :=
  mkModel (page m) (homeColor m) (shape m) (windowSize m) (canvasSize m)
          (canvasViewSize m) (shapeDrawAreaSize m) v
          (backgroundCanvasElement m) (offscreenCanvasElement m)
          (foregroundCtx m) (backgroundCtx m) (gameStart m) (gameLength m)
          (drawPointBuffer m) (lastDrawnAt m) (pixelsFilled m)
          (pixelsOverfilled m) (pixelsUnderFilled m) (finalUrl m)
          (scoreExplainerOpen m).

Definition with_backgroundCanvasElement (v : option HTMLCanvasElement) (m : Model) : Model :=
  mkModel (page m) (homeColor m) (shape m) (windowSize m) (canvasSize m)
          (canvasViewSize m) (shapeDrawAreaSize m) (foregroundCanvasElement m)
          v (offscreenCanvasElement m) (foregroundCtx m) (backgroundCtx m)
          (gameStart m) (gameLength m) (drawPointBuffer m) (lastDrawnAt m)
          (pixelsFilled m) (pixelsOverfilled m) (pixelsUnderFilled m)
          (finalUrl m) (scoreExplainerOpen m).

Definition with_foregroundCtx (v : option CanvasRenderingContext2D) (m : Model) : Model :=
  mkModel (page m) (homeColor m) (shape m) (windowSize m) (canvasSize m)
          (canvasViewSize m) (shapeDrawAreaSize m) (foregroundCanvasElement m)
          (backgroundCanvasElement m) (offscreenCanvasElement m) v
          (backgroundCtx m) (gameStart m) (gameLength m) (drawPointBuffer m)
          (lastDrawnAt m) (pixelsFilled m) (pixelsOverfilled m)
          (pixelsUnderFilled m) (finalUrl m) (scoreExplainerOpen m).

Definition with_backgroundCtx (v : option CanvasRenderingContext2D) (m : Model) : Model :=
  mkModel (page m) (homeColor m) (shape m) (windowSize m) (canvasSize m)
          (canvasViewSize m) (shapeDrawAreaSize m) (foregroundCanvasElement m)
          (backgroundCanvasElement m) (offscreenCanvasElement m)
          (foregroundCtx m) v (gameStart m) (gameLength m) (drawPointBuffer m)
          (lastDrawnAt m) (pixelsFilled m) (pixelsOverfilled m)
          (pixelsUnderFilled m) (finalUrl m) (scoreExplainerOpen m).

Definition with_gameStart (v : Z) (m : Model) : Model :=
  mkModel (page m) (homeColor m) (shape m) (windowSize m) (canvasSize m)
          (canvasViewSize m) (shapeDrawAreaSize m) (foregroundCanvasElement m)
          (backgroundCanvasElement m) (offscreenCanvasElement m)
          (foregroundCtx m) (backgroundCtx m) v (gameLength m)
          (drawPointBuffer m) (lastDrawnAt m) (pixelsFilled m)
          (pixelsOverfilled m) (pixelsUnderFilled m) (finalUrl m)
          (scoreExplainerOpen m).

Definition with_gameLength (v : Z) (m : Model) : Model :=
  mkModel (page m) (homeColor m) (shape m) (windowSize m) (canvasSize m)
          (canvasViewSize m) (shapeDrawAreaSize m) (foregroundCanvasElement m)
          (backgroundCanvasElement m) (offscreenCanvasElement m)
          (foregroundCtx m) (backgroundCtx m) (gameStart m) v
          (drawPointBuffer m) (lastDrawnAt m) (pixelsFilled m)
          (pixelsOverfilled m) (pixelsUnderFilled m) (finalUrl m)
          (scoreExplainerOpen m).

Definition with_drawPointBuffer (v : list Point) (m : Model) : Model :=
  mkModel (page m) (homeColor m) (shape m) (windowSize m) (canvasSize m)
          (canvasViewSize m) (shapeDrawAreaSize m) (foregroundCanvasElement m)
          (backgroundCanvasElement m) (offscreenCanvasElement m)
          (foregroundCtx m) (backgroundCtx m) (gameStart m) (gameLength m) v
          (lastDrawnAt m) (pixelsFilled m) (pixelsOverfilled m)
          (pixelsUnderFilled m) (finalUrl m) (scoreExplainerOpen m).

Definition with_pixelsFilled (v : Z) (m : Model) : Model :=
  mkModel (page m) (homeColor m) (shape m) (windowSize m) (canvasSize m)
          (canvasViewSize m) (shapeDrawAreaSize m) (foregroundCanvasElement m)
          (backgroundCanvasElement m) (offscreenCanvasElement m)
          (foregroundCtx m) (backgroundCtx m) (gameStart m) (gameLength m)
          (drawPointBuffer m) (lastDrawnAt m) v (pixelsOverfilled m)
          (pixelsUnderFilled m) (finalUrl m) (scoreExplainerOpen m).

Definition with_pixelsOverfilled (v : Z) (m : Model) : Model :=
  mkModel (page m) (homeColor m) (shape m) (windowSize m) (canvasSize m)
          (canvasViewSize m) (shapeDrawAreaSize m) (foregroundCanvasElement m)
          (backgroundCanvasElement m) (offscreenCanvasElement m)
          (foregroundCtx m) (backgroundCtx m) (gameStart m) (gameLength m)
          (drawPointBuffer m) (lastDrawnAt m) (pixelsFilled m) v
          (pixelsUnderFilled m) (finalUrl m) (scoreExplainerOpen m).

Definition with_pixelsUnderFilled (v : Z) (m : Model) : Model :=
  mkModel (page m) (homeColor m) (shape m) (windowSize m) (canvasSize m)
          (canvasViewSize m) (shapeDrawAreaSize m) (foregroundCanvasElement m)
          (backgroundCanvasElement m) (offscreenCanvasElement m)
          (foregroundCtx m) (backgroundCtx m) (gameStart m) (gameLength m)
          (drawPointBuffer m) (lastDrawnAt m) (pixelsFilled m)
          (pixelsOverfilled m) v (finalUrl m) (scoreExplainerOpen m).

Definition with_finalUrl (v : option string) (m : Model) : Model :=
  mkModel (page m) (homeColor m) (shape m) (windowSize m) (canvasSize m)
          (canvasViewSize m) (shapeDrawAreaSize m) (foregroundCanvasElement m)
          (backgroundCanvasElement m) (offscreenCanvasElement m)
          (foregroundCtx m) (backgroundCtx m) (gameStart m) (gameLength m)
          (drawPointBuffer m) (lastDrawnAt m) (pixelsFilled m)
          (pixelsOverfilled m) (pixelsUnderFilled m) v (scoreExplainerOpen m).

Definition with_scoreExplainerOpen (v : bool) (m : Model) : Model :=
  mkModel (page m) (homeColor m) (shape m) (windowSize m) (canvasSize m)
          (canvasViewSize m) (shapeDrawAreaSize m) (foregroundCanvasElement m)
          (backgroundCanvasElement m) (offscreenCanvasElement m)
          (foregroundCtx m) (backgroundCtx m) (gameStart m) (gameLength m)
          (drawPointBuffer m) (lastDrawnAt m) (pixelsFilled m)
          (pixelsOverfilled m) (pixelsUnderFilled m) (finalUrl m) v.

Definition isGame (p : Page) : bool :=
  match p with game => true | _ => false end.

Definition isGameOver (p : Page) : bool :=
  match p with game_over => true | _ => false end.

(** The score shown by [view] on the game-over page, before [toFixed(2)]. *)
Definition viewScore (model : Model) : jsnum :=
  scoreOf (pixelsFilled model) (pixelsOverfilled model) (pixelsUnderFilled model).

Definition update (env : Env) (msg : Msg) (model : Model) : M (Model * option Effect) :=
  match msg with
  | start_game =>
      newShape <- makeRandomShape (attempts env) (shapeDrawAreaSize model) ;;
      let newModel :=
        with_page game
          (with_gameStart (now env)
             (with_homeColor (ColorHex "#000")
                (with_shape newShape (with_finalUrl None model)))) in
      ret (newModel,
           Some (StartGameEffect (backgroundCtx model) (canvasViewSize model) newModel))
  | end_game =>
      let gameLength := (now env - gameStart model)%Z in
      match backgroundCanvasElement model,
            getContext2d (offscreenCanvasElement model),
            drawShapeToCanvas (canvasViewSize model) (shape model)
                              (ColorHex "#000") true false with
      | Some _, Some _, Some _ =>
          let pixelsOverfilled := countOverfilled (overlaidPixels env) in
          match drawShapeToCanvas (canvasViewSize model) (shape model)
                                  (ColorHex "#fff") true false,
                backgroundCtx model with
          | Some _, Some _ =>
              let tally := countFilled (drawData env) (fillData env) in
              let pixelsFilled := fst tally in
              let pixelsUnderFilled := snd tally in
              match foregroundCanvasElement model with
              | Some _ =>
                  let score := scoreOf pixelsFilled pixelsOverfilled pixelsUnderFilled in
                  let seconds := (gameLength / 1000)%Z in
                  let finalUrl := toDataURL env score seconds in
                  ret (with_page game_over
                         (with_finalUrl (Some finalUrl)
                            (with_gameLength gameLength
                               (with_pixelsFilled pixelsFilled
                                  (with_pixelsOverfilled pixelsOverfilled
                                     (with_pixelsUnderFilled pixelsUnderFilled model))))),
                       None)
              | None => throwTypeError
              end
          | _, _ => throwTypeError
          end
      | _, _, _ => throwTypeError
      end
  | open_score_explainer =>
      ret (with_scoreExplainerOpen (isGameOver (page model)) model, None)
  | dismiss_score_explainer =>
      ret (with_scoreExplainerOpen false model, None)
  | window_resize w h =>
      if isGame (page model) then ret (model, None)
      else
        let windowSize := mkSize w h in
        let framePadding := 20 in
        let reservedBottom := 70 in
        let frameWidth := w - framePadding * 2 in
        let frameHeight := h - framePadding * 2 - reservedBottom in
        let widthLarger := Qltb h w in
        let canvasSize :=
          if widthLarger
          then mkSize frameWidth (Qmin frameHeight (Math_floor (frameWidth / (3 # 2))))
          else mkSize (Qmin frameWidth (Math_floor (frameHeight / (3 # 2)))) frameHeight in
        let canvasViewSize :=
          mkSize (width canvasSize * devicePixelRatio env)
                 (height canvasSize * devicePixelRatio env) in
        let shapeDrawAreaSize :=
          mkSize (width canvasViewSize) (height canvasViewSize - 60) in
        newShape <- match points (shape model) with
                    | [] => makeRandomShape (attempts env) shapeDrawAreaSize
                    | _ :: _ => ret (shape model)
                    end ;;
        ret (with_shape newShape
               (with_windowSize windowSize
                  (with_canvasSize canvasSize
                     (with_canvasViewSize canvasViewSize
                        (with_shapeDrawAreaSize shapeDrawAreaSize model)))),
             None)
  | canvas_mounted kind canvasElement =>
      let ctx := getContext2d canvasElement in
      match kind with
      | foreground =>
          ret (with_foregroundCanvasElement (Some canvasElement)
                 (with_foregroundCtx ctx model), None)
      | background =>
          ret (with_backgroundCanvasElement (Some canvasElement)
                 (with_backgroundCtx ctx model), None)
      end
  | canvas_render => ret (model, None)
  | canvas_draw windowX windowY =>
      match backgroundCanvasElement model with
      | None => throwTypeError
      | Some _ =>
          newPoint <- newPoint ((windowX - rectLeft env) * devicePixelRatio env)
                               ((windowY - rectTop env) * devicePixelRatio env) ;;
          if (length (drawPointBuffer model) <? 5)%nat
          then ret (with_drawPointBuffer (drawPointBuffer model ++ [newPoint]) model, None)
          else
            match backgroundCtx model with
            | None => ret (model, None)
            | Some ctx =>
                ret (with_drawPointBuffer [newPoint] model,
                     Some (DrawEffect ctx (canvasViewSize model)
                                      (drawPointBuffer model) newPoint))
            end
      end
  | canvas_draw_end =>
      match drawPointBuffer model with
      | [] => ret (model, None)
      | _ :: _ =>
          match backgroundCtx model with
          | None => ret (model, None)
          | Some ctx =>
              ret (with_drawPointBuffer [] model,
                   Some (DrawEndEffect ctx (canvasViewSize model) (drawPointBuffer model)))
          end
      end
  | home_carousel_tick =>
      color <- makeRandomColor ;;
      newShape <- makeRandomShape (attempts env) (shapeDrawAreaSize model) ;;
      let newModel := with_homeColor color (with_shape newShape model) in
      match foregroundCtx model with
      | None => ret (newModel, None)
      | Some ctx =>
          ret (newModel,
               Some (CarouselEffect ctx (canvasViewSize model) (shape model)
                                    (homeColor model)))
      end
  | game_tick => ret (model, None)
  end.

(** The models the program can be in: [init] and what [update] makes of a
    reachable model, whatever the message and the browser's answers. *)
Inductive reachable : Model -> Prop :=
| reachable_init : reachable init
| reachable_step (env : Env) (msg : Msg) (model model' : Model)
    (effect : option Effect) (w w' : World) :
    reachable model ->
    update env msg model w = Ok ((model', effect), w') ->
    reachable model'.

(** ** Vocabulary of the statements *)

(** The turn from [r] through [q] to [p] is counter-clockwise on the raster,
    whose [y] axis points down: the cross product that [makeHullPresorted]
    compares is negative, so the hull keeps [q]. *)
Definition ccw (r q p : Point) : bool :=
  Qltb ((x q - x r) * (y p - y r)) ((y q - y r) * (x p - x r)).







(** The indices the counting loops visit: the red channel of every pixel. *)
Definition pixelIndices (len : nat) : list nat :=
  map (Nat.mul 4) (seq 0 ((len + 3) / 4)).

(** The pixels the interior mask marks. *)
Definition maskPixels (fillData : list Z) : list nat :=
  filter (fun i => channelIs fillData i 255) (pixelIndices (length fillData)).






(** The same quantities without rounding. *)
Definition intersectsDet (a b c d p q r s : Q) : Q :=
  (c - a) * (s - q) - (r - p) * (d - b).

Definition intersectsLambda (a b c d p q r s : Q) : Q :=
  ((s - q) * (r - a) + (p - r) * (s - b)) / intersectsDet a b c d p q r s.

Definition intersectsGamma (a b c d p q r s : Q) : Q :=
  ((b - d) * (r - a) + (c - a) * (s - b)) / intersectsDet a b c d p q r s.

(** The order of [pointComparator]: [a] sorts strictly before [b]. *)
Definition lexlt (a b : Point) : Prop := pointComparator a b = (-1)%Z.

(** The cross product of [q - r] and [p - r]. *)
Definition det3 (rx ry qx qy px py : Q) : Q :=
  (qx - rx) * (py - ry) - (qy - ry) * (px - rx).

Definition det (r q p : Point) : Q := det3 (x r) (y r) (x q) (y q) (x p) (y p).

(** [P] holds of any two, of any three, elements taken in the list's order. *)
Definition pairsAt {A : Type} (d : A) (P : A -> A -> Prop) (l : list A) : Prop :=
  forall i j, (i < j < length l)%nat -> P (nth i l d) (nth j l d).

Definition triplesAt {A : Type} (d : A) (P : A -> A -> A -> Prop) (l : list A) : Prop :=
  forall i j k, (i < j < k)%nat -> (k < length l)%nat ->
                P (nth i l d) (nth j l d) (nth k l d).



(** The order of [pointComparator], ties included. *)
Definition lexle (a b : Point) : Prop := (pointComparator a b <= 0)%Z.

(** The stack of a scan, top first: every three of its points, read from the
    bottom up, turn counter-clockwise, and each point may be visited
    ([before]) before those above it. *)
Definition stackConvex (before : Point -> Point -> Prop) (d0 : Point)
    (s : list Point) : Prop :=
  triplesAt d0 (fun a b c => det c b a < 0) s /\
  pairsAt d0 (fun a b => before b a) s.

(** What holds of the stack once the points of [l] are visited. *)
Definition scanned (before : Point -> Point -> Prop) (d0 : Point)
    (l s : list Point) : Prop :=
  stackConvex before d0 s /\
  incl s l /\
  NoDup (map oid s) /\
  (l <> [] -> hd d0 s = last l d0 /\ last s d0 = hd d0 l /\ s <> []).

(** A computation leaves the sequence of random samples as it found it. *)
Definition keepsSamples {A : Type} (c : M A) : Prop :=
  forall w a w', c w = Ok (a, w') -> samples w' = samples w.


(** ** A concrete session

    A fixed sequence of samples in [0, 1), the browser's answers, and the
    models a short run of messages leads to. *)

Definition demoSamples (k : nat) : Q :=
  ((Z.of_nat k * Z.of_nat k * 7919 + Z.of_nat k * 104729 + 1) mod 1000) # 1000.

Definition demoWorld : World := mkWorld demoSamples 0 0.

(** Three pixels: the first outside the shape and coloured, the other two
    inside it and coloured. *)
Definition demoEnv : Env :=
  {| now := 5000;
     devicePixelRatio := 1;
     rectLeft := 0;
     rectTop := 0;
     overlaidPixels := [170; 170; 170; 255; 0; 0; 0; 255; 0; 0; 0; 255]%Z;
     drawData := [170; 170; 170; 255; 170; 170; 170; 255; 170; 170; 170; 255]%Z;
     fillData := [0; 0; 0; 0; 255; 255; 255; 255; 255; 255; 255; 255]%Z;
     toDataURL := fun _ _ => "data:image/png"%string;
     attempts := 4 |}.

(** The same read-backs for a mask without a single interior pixel. *)
Definition emptyMaskEnv : Env :=
  {| now := 5000;
     devicePixelRatio := 1;
     rectLeft := 0;
     rectTop := 0;
     overlaidPixels := [170; 170; 170; 255; 0; 0; 0; 255; 0; 0; 0; 255]%Z;
     drawData := [170; 170; 170; 255; 170; 170; 170; 255; 170; 170; 170; 255]%Z;
     fillData := [0; 0; 0; 0; 0; 0; 0; 0; 0; 0; 0; 0]%Z;
     toDataURL := fun _ _ => "data:image/png"%string;
     attempts := 4 |}.

Fixpoint runMessages (env : Env) (msgs : list Msg) (model : Model) : M Model :=
  match msgs with
  | [] => ret model
  | msg :: msgs' =>
      step <- update env msg model ;;
      runMessages env msgs' (fst step)
  end.

Definition fiveStrokes : list Msg :=
  [canvas_draw 100 100; canvas_draw 110 105; canvas_draw 120 111;
   canvas_draw 130 118; canvas_draw 140 126].

(** A round in progress with both canvases mounted. *)
Definition playingScript : list Msg :=
  [window_resize 1240 910;
   canvas_mounted background (mkCanvas 1 (Some 1%nat));
   canvas_mounted foreground (mkCanvas 2 (Some 2%nat));
   start_game] ++ fiveStrokes.

(** The same round when the background canvas gave no 2D context. *)
Definition stalledScript : list Msg :=
  [window_resize 1240 910;
   canvas_mounted background (mkCanvas 1 None);
   canvas_mounted foreground (mkCanvas 2 (Some 2%nat));
   start_game] ++ fiveStrokes.

Definition afterRun (msgs : list Msg) : Model * World :=
  match runMessages demoEnv msgs init demoWorld with
  | Ok mw => mw
  | _ => (init, demoWorld)
  end.

Definition playing : Model := Eval vm_compute in fst (afterRun playingScript).

Definition playingWorld : World := snd (afterRun playingScript).

Definition stalled : Model := Eval vm_compute in fst (afterRun stalledScript).

Definition stalledWorld : World := snd (afterRun stalledScript).


Definition pentagonSorted : list Point :=
  [mkPoint 0 0 0; mkPoint 1 1 2; mkPoint 4 2 (-1); mkPoint 2 3 3; mkPoint 3 4 1].

(** The model after [end_game] closes the round in progress. *)
Definition finished : Model :=
  Eval vm_compute in
    match update demoEnv end_game playing playingWorld with
    | Ok (m, _, _) => m
    | _ => init
    end.

(** ** The view: what [view] computes from the model *)

Definition bufferTime : Z := 2 * 1000.

(** The [opacity] of the frame when [Date.now()] answers [clock]. *)
Definition viewOpacity (clock : Z) (model : Model) : Q :=
  let timeSinceStart := (clock - gameStart model)%Z in
  if isGame (page model)
  then Qmax 0 (inject_Z (bufferTime - timeSinceStart) / inject_Z bufferTime)
  else 1.

(** The message the navigation button dispatches when clicked. *)
Definition viewAction (model : Model) : Msg :=
  match page model with
  | home => start_game
  | game => end_game
  | game_over => start_game
  end.

(** What every model of a session satisfies: the final image is there
    exactly on the game-over page; the home page has seen no round yet; off
    the home page there is a shape; no tally is negative; and each context
    is the one its canvas element gave. *)
Definition sessionInvariant (m : Model) : Prop :=
  (finalUrl m <> None <-> page m = game_over) /\
  (page m = home ->
   pixelsFilled m = 0%Z /\ pixelsOverfilled m = 0%Z /\ pixelsUnderFilled m = 0%Z /\
   gameLength m = 0%Z /\ gameStart m = 0%Z) /\
  (page m <> home -> points (shape m) <> []) /\
  ((0 <= pixelsFilled m)%Z /\ (0 <= pixelsOverfilled m)%Z /\
   (0 <= pixelsUnderFilled m)%Z) /\
  foregroundCtx m = match foregroundCanvasElement m with
                    | Some el => getContext2d el
                    | None => None
                    end /\
  backgroundCtx m = match backgroundCanvasElement m with
                    | Some el => getContext2d el
                    | None => None
                    end /\
  offscreenCanvasElement m = offscreenCanvasElement init.


(** * Proofs *)

(** ** Numbers *)

Lemma Qltb_lt (a b : Q) : Qltb a b = true <-> a < b.
Proof.
  unfold Qltb. rewrite negb_true_iff. split; intro H.
  - apply Qnot_le_lt. intro H1. apply Qle_bool_iff in H1. congruence.
  - destruct (Qle_bool b a) eqn:E; auto. apply Qle_bool_iff in E. lra.
Qed.

Lemma Qltb_ge (a b : Q) : Qltb a b = false <-> b <= a.
Proof.
  unfold Qltb. rewrite negb_false_iff. apply Qle_bool_iff.
Qed.

Lemma Qeq_bool_false (a b : Q) : Qeq_bool a b = false <-> ~ a == b.
Proof.
  split; intro H.
  - intro E. apply Qeq_bool_iff in E. congruence.
  - destruct (Qeq_bool a b) eqn:E; auto. apply Qeq_bool_iff in E. contradiction.
Qed.

Lemma unit_quotient (n d : Q) :
  ~ d == 0 ->
  (0 < n / d /\ n / d < 1) <->
  ((0 < d /\ 0 < n /\ n < d) \/ (d < 0 /\ d < n /\ n < 0)).
Proof.
  intro Hd.
  assert (E : n == (n / d) * d) by (field; exact Hd).
  set (t := n / d) in *. clearbody t.
  split.
  - intros [H0 H1]. destruct (Qlt_le_dec 0 d) as [Hp | Hn].
    + left. nra.
    + right. assert (d < 0) by (destruct (Qeq_dec d 0); [contradiction | lra]). nra.
  - intros [[Hp [H0 H1]] | [Hn [H0 H1]]]; split; nra.
Qed.

(** Splits every [match] on an intermediate result in hypothesis [H]. *)
Ltac split_matches H :=
  repeat match type of H with
         | context [match ?e with _ => _ end] => destruct e eqn:?
         | context [if ?e then _ else _] => destruct e eqn:?
         end.

Ltac invert_update H :=
  unfold update, bind, ret, throwTypeError, makeRandomColor, randomBetween,
    Math_random, newPoint in H;
  split_matches H; try discriminate H;
  try (injection H as <- <- <-).

(** ** Segment intersection *)

(** *** Signs and zeros of binary64 arithmetic

    The operations on [float] are specified on [spec_float] ([Prim2SF]); the
    facts below are read off that specification. *)
















(** *** [intersects] on doubles *)







(** *** [intersects] without rounding

    Evaluated exactly, the formula does not depend on the order of the two
    segments and is [false] on every shared endpoint: what the doubles add
    is the rounding alone. *)

Lemma intersects_true_iff (a b c d p q r s : Q) :
  intersects a b c d p q r s = true <->
  ~ intersectsDet a b c d p q r s == 0 /\
  0 < intersectsLambda a b c d p q r s /\ intersectsLambda a b c d p q r s < 1 /\
  0 < intersectsGamma a b c d p q r s /\ intersectsGamma a b c d p q r s < 1.
Proof.
  unfold intersects, intersectsLambda, intersectsGamma, intersectsDet.
  destruct (Qeq_bool ((c - a) * (s - q) - (r - p) * (d - b)) 0) eqn:E.
  - apply Qeq_bool_iff in E. split; [discriminate | tauto].
  - apply Qeq_bool_false in E.
    rewrite !andb_true_iff, !Qltb_lt. tauto.
Qed.

(** The same test on the numerators. *)
Lemma intersects_numerators (a b c d p q r s : Q) :
  let det := intersectsDet a b c d p q r s in
  let nl := (s - q) * (r - a) + (p - r) * (s - b) in
  let ng := (b - d) * (r - a) + (c - a) * (s - b) in
  intersects a b c d p q r s = true <->
  ((0 < det /\ 0 < nl /\ nl < det /\ 0 < ng /\ ng < det) \/
   (det < 0 /\ det < nl /\ nl < 0 /\ det < ng /\ ng < 0)).
Proof.
  intros det nl ng. rewrite intersects_true_iff.
  unfold intersectsLambda, intersectsGamma. fold det nl ng.
  split.
  - intros [Hd [L0 [L1 [G0 G1]]]].
    pose proof (proj1 (unit_quotient nl det Hd) (conj L0 L1)).
    pose proof (proj1 (unit_quotient ng det Hd) (conj G0 G1)).
    lra.
  - intro H.
    assert (Hd : ~ det == 0) by lra.
    pose proof (proj2 (unit_quotient nl det Hd)).
    pose proof (proj2 (unit_quotient ng det Hd)).
    split; [exact Hd |].
    assert (0 < nl / det /\ nl / det < 1) by (apply H0; lra).
    assert (0 < ng / det /\ ng / det < 1) by (apply H1; lra).
    tauto.
Qed.

Lemma bool_eq_iff (u v : bool) : (u = true <-> v = true) -> u = v.
Proof. destruct u, v; intuition congruence. Qed.

Lemma intersects_exact_symmetric (a b c d p q r s : Q) :
  intersects a b c d p q r s = intersects p q r s a b c d /\
  ((a == p /\ b == q) \/ (a == r /\ b == s) \/
   (c == p /\ d == q) \/ (c == r /\ d == s) ->
   intersects a b c d p q r s = false).
Proof.
  split.
  - apply bool_eq_iff. rewrite !intersects_numerators. unfold intersectsDet.
    assert (E1 : (c - a) * (q - s) - (p - r) * (d - b)
                 == - ((c - a) * (s - q) - (r - p) * (d - b))) by ring.
    assert (E2 : (d - b) * (c - p) + (a - c) * (d - q)
                 == ((b - d) * (r - a) + (c - a) * (s - b))
                    - ((c - a) * (s - q) - (r - p) * (d - b))) by ring.
    assert (E3 : (q - s) * (c - p) + (r - p) * (d - q)
                 == ((s - q) * (r - a) + (p - r) * (s - b))
                    - ((c - a) * (s - q) - (r - p) * (d - b))) by ring.
    assert (E0 : (r - p) * (d - b) - (c - a) * (s - q)
                 == - ((c - a) * (s - q) - (r - p) * (d - b))) by ring.
    lra.
  - intro H. destruct (intersects a b c d p q r s) eqn:E; auto. exfalso.
    apply intersects_numerators in E. unfold intersectsDet in E.
    destruct H as [[H1 H2] | [[H1 H2] | [[H1 H2] | [H1 H2]]]].
    + assert ((s - q) * (r - a) + (p - r) * (s - b) == 0) by (rewrite H1, H2; ring). lra.
    + assert ((s - q) * (r - a) + (p - r) * (s - b) == 0) by (rewrite H1, H2; ring). lra.
    + assert ((s - q) * (r - a) + (p - r) * (s - b)
              == (c - a) * (s - q) - (r - p) * (d - b)) by (rewrite H1, H2; ring). lra.
    + assert ((b - d) * (r - a) + (c - a) * (s - b) == 0) by (rewrite H1, H2; ring). lra.
Qed.

(** ** Scoring engine *)

Lemma forStep4_fold {T : Type} (len : nat) (body : nat -> T -> T) :
  forall (n k : nat) (s : T),
    forStep4 n (4 * k) len body s =
    fold_left (fun acc i => body i acc)
              (map (Nat.mul 4) (seq k (Nat.min n ((len + 3) / 4 - k)))) s.
Proof.
  induction n as [| n IH]; intros k s.
  - reflexivity.
  - cbn [forStep4].
    destruct (4 * k <? len)%nat eqn:E.
    + apply Nat.ltb_lt in E.
      assert (Hk : (k < (len + 3) / 4)%nat).
      { pose proof (Nat.div_mod_eq (len + 3) 4).
        pose proof (Nat.mod_upper_bound (len + 3) 4 ltac:(lia)). lia. }
      replace (4 * k + 4)%nat with (4 * (S k))%nat by lia.
      rewrite IH.
      replace (Nat.min (S n) ((len + 3) / 4 - k))
        with (S (Nat.min n ((len + 3) / 4 - S k))) by lia.
      reflexivity.
    + apply Nat.ltb_ge in E.
      assert (Hk : ((len + 3) / 4 <= k)%nat).
      { pose proof (Nat.div_mod_eq (len + 3) 4).
        pose proof (Nat.mod_upper_bound (len + 3) 4 ltac:(lia)). lia. }
      replace (Nat.min (S n) ((len + 3) / 4 - k)) with 0%nat by lia.
      reflexivity.
Qed.

Lemma forStep4_pixels {T : Type} (len : nat) (body : nat -> T -> T) (s : T) :
  forStep4 len 0 len body s = fold_left (fun acc i => body i acc) (pixelIndices len) s.
Proof.
  change 0%nat with (4 * 0)%nat at 1. rewrite forStep4_fold. unfold pixelIndices.
  replace (Nat.min len ((len + 3) / 4 - 0)) with ((len + 3) / 4)%nat; [reflexivity |].
  pose proof (Nat.div_mod_eq (len + 3) 4).
  pose proof (Nat.mod_upper_bound (len + 3) 4 ltac:(lia)). lia.
Qed.

Lemma countFilled_fold (drawData fillData : list Z) (l : list nat) :
  forall tally : Z * Z,
    fold_left (fun acc i =>
                 if negb (channelIs fillData i 255) then acc
                 else if channelIs drawData i gray
                      then ((fst acc + 1)%Z, snd acc)
                      else (fst acc, (snd acc + 1)%Z)) l tally =
    ((fst tally
      + Z.of_nat (length (filter (fun i => channelIs drawData i gray)
                                 (filter (fun i => channelIs fillData i 255) l))))%Z,
     (snd tally
      + Z.of_nat (length (filter (fun i => negb (channelIs drawData i gray))
                                 (filter (fun i => channelIs fillData i 255) l))))%Z).
Proof.
  induction l as [| i l IH]; intros [f u].
  - simpl. f_equal; lia.
  - cbn [fold_left filter]. rewrite IH.
    destruct (channelIs fillData i 255); cbn [negb filter].
    + destruct (channelIs drawData i gray); cbn [negb fst snd length];
        f_equal; lia.
    + reflexivity.
Qed.

Lemma countFilled_spec (drawData fillData : list Z) :
  countFilled drawData fillData =
  (Z.of_nat (length (filter (fun i => channelIs drawData i gray) (maskPixels fillData))),
   Z.of_nat (length (filter (fun i => negb (channelIs drawData i gray))
                            (maskPixels fillData)))).
Proof.
  unfold countFilled. rewrite forStep4_pixels, countFilled_fold. reflexivity.
Qed.

Lemma filter_split_length {A : Type} (f : A -> bool) (l : list A) :
  (length (filter f l) + length (filter (fun a => negb (f a)) l) = length l)%nat.
Proof.
  induction l as [| a l IH]; simpl; [reflexivity |].
  destruct (f a); simpl; lia.
Qed.

Lemma countOverfilled_spec (pixels : list Z) :
  countOverfilled pixels =
  Z.of_nat (length (filter (fun i => channelIs pixels i gray)
                           (pixelIndices (length pixels)))).
Proof.
  unfold countOverfilled. rewrite forStep4_pixels.
  generalize (pixelIndices (length pixels)) as l.
  assert (G : forall (l : list nat) (z : Z),
             fold_left (fun acc i => if channelIs pixels i gray then (acc + 1)%Z else acc) l z
             = (z + Z.of_nat (length (filter (fun i => channelIs pixels i gray) l)))%Z).
  { induction l as [| i l IH]; intro z; cbn [fold_left filter].
    - simpl. lia.
    - rewrite IH. destruct (channelIs pixels i gray); cbn [length]; lia. }
  intro l. rewrite G. lia.
Qed.

(** C3.  In the fill/underfill pass every mask pixel (red channel 255 in the
    mask read-back) is counted once: as filled when the stroke layer shows
    the marker colour there, as underfilled otherwise.  So the two tallies
    add up to the number of mask pixels, whatever the stroke layer holds
    and whatever the lengths of the two buffers. *)
Theorem fill_underfill_partition (drawData fillData : list Z) :
  let tally := countFilled drawData fillData in
  fst tally = Z.of_nat (length (filter (fun i => channelIs drawData i gray)
                                       (maskPixels fillData))) /\
  snd tally = Z.of_nat (length (filter (fun i => negb (channelIs drawData i gray))
                                       (maskPixels fillData))) /\
  (fst tally + snd tally)%Z = Z.of_nat (length (maskPixels fillData)).
Proof.
  cbv zeta. rewrite countFilled_spec. cbn [fst snd].
  repeat split.
  rewrite <- Nat2Z.inj_add, filter_split_length. reflexivity.
Qed.

Lemma scoreOf_finite (f o u : Z) :
  (f + u <> 0)%Z ->
  scoreOf f o u = Fin (inject_Z (100 * f - o) / inject_Z (f + u)).
Proof.
  intro H. unfold scoreOf, jsdiv.
  destruct (Qeq_bool (inject_Z (f + u)) 0) eqn:E; [| reflexivity].
  apply Qeq_bool_iff in E. exfalso. apply H.
  unfold Qeq in E. simpl in E. lia.
Qed.

Lemma scoreOf_zero (f o u : Z) :
  (f + u = 0)%Z ->
  scoreOf f o u =
  if (100 * f - o =? 0)%Z then NaN
  else if (0 <? 100 * f - o)%Z then PosInfinity else NegInfinity.
Proof.
  intro H. unfold scoreOf, jsdiv. rewrite H.
  change (Qeq_bool (inject_Z 0) 0) with true. cbv iota.
  generalize (100 * f - o)%Z as n. intro n.
  unfold Qeq_bool, Qltb, Qle_bool, inject_Z. simpl.
  rewrite !Z.mul_1_r.
  destruct (n =? 0)%Z eqn:E0; [reflexivity |].
  destruct (0 <? n)%Z eqn:E1.
  - apply Z.ltb_lt in E1. destruct (n <=? 0)%Z eqn:E2; [apply Z.leb_le in E2; lia | reflexivity].
  - apply Z.ltb_ge in E1. destruct (n <=? 0)%Z eqn:E2; [reflexivity | apply Z.leb_gt in E2; lia].
Qed.

Example score_example : scoreOf 100 50 0 = Fin (9950 # 100).
Proof. reflexivity. Qed.

Lemma countOverfilled_nonneg (pixels : list Z) : (0 <= countOverfilled pixels)%Z.
Proof. rewrite countOverfilled_spec. lia. Qed.

Lemma countFilled_nonneg (drawData fillData : list Z) :
  (0 <= fst (countFilled drawData fillData))%Z /\
  (0 <= snd (countFilled drawData fillData))%Z.
Proof. rewrite countFilled_spec. cbn [fst snd]. lia. Qed.

(** What [end_game] returns when it returns. *)
Lemma end_game_result (env : Env) (model model' : Model) (effect : option Effect)
    (w w' : World) :
  update env end_game model w = Ok ((model', effect), w') ->
  pixelsFilled model' = fst (countFilled (drawData env) (fillData env)) /\
  pixelsOverfilled model' = countOverfilled (overlaidPixels env) /\
  pixelsUnderFilled model' = snd (countFilled (drawData env) (fillData env)) /\
  gameLength model' = (now env - gameStart model)%Z /\
  finalUrl model' =
  Some (toDataURL env (scoreOf (pixelsFilled model') (pixelsOverfilled model')
                               (pixelsUnderFilled model'))
                  (gameLength model' / 1000)%Z) /\
  page model' = game_over /\ effect = None /\ w' = w.
Proof.
  intro H. unfold update, ret, throwTypeError in H.
  split_matches H; try discriminate H.
  injection H as <- <- <-. cbn. repeat split.
Qed.

(** Whether [end_game] throws does not depend on the pixels read back. *)
Lemma end_game_succeeds (env env2 : Env) (model model' : Model)
    (effect : option Effect) (w w' : World) :
  update env end_game model w = Ok ((model', effect), w') ->
  exists model2, update env2 end_game model w = Ok ((model2, None), w).
Proof.
  intro H. unfold update, ret, throwTypeError in H |- *.
  split_matches H; try discriminate H.
  eexists. reflexivity.
Qed.

(** C2.  The score [end_game] paints on the final image, and the score
    [view] shows for the model [end_game] returns, is
    [(100 * pixelsFilled - pixelsOverfilled) / (pixelsFilled + pixelsUnderFilled)]
    of the tallies just counted; for tallies 100, 50 and 0 it is 99.5. *)
Theorem end_game_score (env : Env) (model model' : Model)
    (effect : option Effect) (w w' : World) :
  update env end_game model w = Ok ((model', effect), w') ->
  let f := pixelsFilled model' in
  let o := pixelsOverfilled model' in
  let u := pixelsUnderFilled model' in
  f = fst (countFilled (drawData env) (fillData env)) /\
  o = countOverfilled (overlaidPixels env) /\
  u = snd (countFilled (drawData env) (fillData env)) /\
  finalUrl model' = Some (toDataURL env (scoreOf f o u) (gameLength model' / 1000)%Z) /\
  viewScore model' = scoreOf f o u /\
  scoreOf f o u = jsdiv (inject_Z (100 * f - o)) (inject_Z (f + u)) /\
  ((f + u <> 0)%Z ->
   scoreOf f o u = Fin (inject_Z (100 * f - o) / inject_Z (f + u))) /\
  (exists q, scoreOf 100 50 0 = Fin q /\ q == 995 # 10).
Proof.
  intros H f o u.
  destruct (end_game_result _ _ _ _ _ _ H) as [Hf [Ho [Hu [_ [Hurl _]]]]].
  repeat split; try assumption; try reflexivity.
  - apply scoreOf_finite.
  - exists (9950 # 100). split; reflexivity.
Qed.

Lemma end_game_score_witness :
  update demoEnv end_game playing playingWorld = Ok ((finished, None), playingWorld) /\
  viewScore finished = Fin (199 # 2) /\
  finalUrl finished = Some (toDataURL demoEnv (Fin (199 # 2)) 0).
Proof.
  assert (H : update demoEnv end_game playing playingWorld
              = Ok ((finished, None), playingWorld)) by (vm_compute; reflexivity).
  split; [exact H |].
  pose proof (end_game_score _ _ _ _ _ _ H) as T. cbv zeta in T.
  destruct T as [_ [_ [_ [Hurl [Hview _]]]]].
  split; [exact Hview | exact Hurl].
Defined.

(** C4, the claim as stated fails: with both tallies of the interior zero,
    the score is [NaN] when nothing was overfilled, and the round closed on
    a mask without interior pixels shows minus infinity; neither is a
    number. *)
Lemma zero_area_score_not_a_number :
  (0 + 0 = 0)%Z /\
  scoreOf 0 0 0 = NaN /\
  toFixedNonFinite (scoreOf 0 0 0) = Some "NaN"%string /\
  ~ (exists q, scoreOf 0 0 0 = Fin q) /\
  exists model',
    update emptyMaskEnv end_game playing playingWorld = Ok ((model', None), playingWorld) /\
    (pixelsFilled model' + pixelsUnderFilled model' = 0)%Z /\
    viewScore model' = NegInfinity.
Proof.
  split; [reflexivity |]. split; [reflexivity |]. split; [reflexivity |].
  split; [intros [q Hq]; discriminate Hq |].
  eexists. split; [vm_compute; reflexivity |]. split; reflexivity.
Qed.

(** C4, amended.  When the denominator [pixelsFilled + pixelsUnderFilled] is
    zero, [end_game] does not throw on that account (whether it throws does
    not depend on the pixels), and the score it paints and [view] shows is
    [NaN] when [pixelsOverfilled] is zero and minus infinity otherwise,
    rendered by [toFixed] as the text NaN or -Infinity; no sentinel is put in
    its place. *)
Theorem zero_area_score (env : Env) (model model' : Model)
    (effect : option Effect) (w w' : World) :
  update env end_game model w = Ok ((model', effect), w') ->
  (pixelsFilled model' + pixelsUnderFilled model' = 0)%Z ->
  viewScore model' = (if (pixelsOverfilled model' =? 0)%Z then NaN else NegInfinity) /\
  toFixedNonFinite (viewScore model') =
  Some (if (pixelsOverfilled model' =? 0)%Z then "NaN"%string else "-Infinity"%string) /\
  finalUrl model' = Some (toDataURL env (viewScore model') (gameLength model' / 1000)%Z) /\
  (forall env2, exists model2, update env2 end_game model w = Ok ((model2, None), w)).
Proof.
  intros H Hzero.
  destruct (end_game_result _ _ _ _ _ _ H) as [Hf [Ho [Hu [_ [Hurl _]]]]].
  pose proof (countOverfilled_nonneg (overlaidPixels env)) as Hover.
  destruct (countFilled_nonneg (drawData env) (fillData env)) as [Hf0 Hu0].
  rewrite <- Ho in Hover. rewrite <- Hf in Hf0. rewrite <- Hu in Hu0.
  assert (E : viewScore model'
              = if (pixelsOverfilled model' =? 0)%Z then NaN else NegInfinity).
  { unfold viewScore. rewrite (scoreOf_zero _ _ _ Hzero).
    assert (pixelsFilled model' = 0)%Z by lia.
    destruct (pixelsOverfilled model' =? 0)%Z eqn:E0.
    - apply Z.eqb_eq in E0.
      replace (100 * pixelsFilled model' - pixelsOverfilled model' =? 0)%Z with true
        by (symmetry; apply Z.eqb_eq; lia).
      reflexivity.
    - apply Z.eqb_neq in E0.
      replace (100 * pixelsFilled model' - pixelsOverfilled model' =? 0)%Z with false
        by (symmetry; apply Z.eqb_neq; lia).
      replace (0 <? 100 * pixelsFilled model' - pixelsOverfilled model')%Z with false
        by (symmetry; apply Z.ltb_ge; lia).
      reflexivity. }
  split; [exact E |].
  split; [rewrite E; destruct (pixelsOverfilled model' =? 0)%Z; reflexivity |].
  split; [exact Hurl |].
  intro env2. exact (end_game_succeeds env env2 _ _ _ _ _ H).
Qed.

Lemma zero_area_score_witness :
  exists model',
    update emptyMaskEnv end_game playing playingWorld = Ok ((model', None), playingWorld) /\
    (pixelsFilled model' + pixelsUnderFilled model' = 0)%Z /\
    viewScore model' = NegInfinity /\
    toFixedNonFinite (viewScore model') = Some "-Infinity"%string.
Proof.
  assert (H : exists model',
             update emptyMaskEnv end_game playing playingWorld
             = Ok ((model', None), playingWorld) /\
             (pixelsFilled model' + pixelsUnderFilled model' = 0)%Z /\
             (pixelsOverfilled model' =? 0)%Z = false).
  { eexists. split; [vm_compute; reflexivity |]. split; reflexivity. }
  destruct H as [model' [H [Hzero Hover]]]. exists model'.
  split; [exact H |]. split; [exact Hzero |].
  pose proof (zero_area_score _ _ _ _ _ _ H Hzero) as T.
  rewrite Hover in T. destruct T as [T1 [T2 _]]. split; assumption.
Defined.

(** ** Game session state machine *)

Lemma update_buffer_bound (env : Env) (msg : Msg) (model model' : Model)
    (effect : option Effect) (w w' : World) :
  update env msg model w = Ok ((model', effect), w') ->
  (length (drawPointBuffer model) <= 5)%nat ->
  (length (drawPointBuffer model') <= 5)%nat.
Proof.
  intros H Hb. destruct msg; invert_update H; cbn; try assumption; try lia.
  all: try (rewrite length_app; cbn; apply Nat.ltb_lt in Heqb; lia).
  all: match goal with
       | E : drawPointBuffer _ = _ |- _ => rewrite E; cbn in *; lia
       end.
Qed.

Lemma reachable_buffer_bound (model : Model) :
  reachable model -> (length (drawPointBuffer model) <= 5)%nat.
Proof.
  induction 1 as [| env msg model model' effect w w' _ IH H].
  - cbn. lia.
  - exact (update_buffer_bound _ _ _ _ _ _ _ H IH).
Qed.

(** C8.  While the page is [game], a [window_resize] message returns the
    model as it is and no effect, and leaves the world untouched: sizes and
    shape stay as they were. *)
Theorem window_resize_during_game (env : Env) (w h : Q) (model : Model) (world : World) :
  page model = game ->
  update env (window_resize w h) model world = Ok ((model, None), world).
Proof.
  intro H. unfold update. rewrite H. reflexivity.
Qed.

Lemma smoothSegments_some (pts : list Point) (indices : list nat) :
  Forall (fun i => (i + 1 < length pts)%nat) indices ->
  exists curves, smoothSegments pts indices = Some curves.
Proof.
  induction 1 as [| i indices Hi _ [curves IH]].
  - exists []. reflexivity.
  - cbn [smoothSegments].
    destruct (nth_error pts i) as [pi |] eqn:Ei.
    2: { apply nth_error_None in Ei. lia. }
    destruct (nth_error pts (i + 1)) as [pj |] eqn:Ej.
    2: { apply nth_error_None in Ej. lia. }
    rewrite IH. eexists. reflexivity.
Qed.

Lemma drawPoints_nonempty (lineWidth : Q) (pts : list Point) :
  pts <> [] -> exists ops, drawPoints lineWidth pts = Some ops.
Proof.
  intro Hne. unfold drawPoints.
  destruct pts as [| p0 rest]; [contradiction |].
  destruct (length (p0 :: rest) <? 3)%nat eqn:E.
  - cbn [nth_error]. eexists. reflexivity.
  - apply Nat.ltb_ge in E. cbn [nth_error].
    destruct (smoothSegments_some (p0 :: rest) (seq 1 (length (p0 :: rest) - 3)))
      as [curves Hc].
    { apply Forall_forall. intros i Hi. apply in_seq in Hi. lia. }
    rewrite Hc.
    destruct (nth_error (p0 :: rest) (length (p0 :: rest) - 2)) as [pi |] eqn:Ei.
    2: { apply nth_error_None in Ei. lia. }
    destruct (nth_error (p0 :: rest) (length (p0 :: rest) - 2 + 1)) as [pj |] eqn:Ej.
    2: { apply nth_error_None in Ej. lia. }
    eexists. reflexivity.
Qed.

Lemma canvas_draw_effect (env : Env) (wx wy : Q) (model model' : Model)
    (eff : Effect) (w w' : World) :
  update env (canvas_draw wx wy) model w = Ok ((model', Some eff), w') ->
  exists ctx newPt,
    eff = DrawEffect ctx (canvasViewSize model) (drawPointBuffer model) newPt /\
    (5 <= length (drawPointBuffer model))%nat.
Proof.
  intro H. invert_update H.
  apply Nat.ltb_ge in Heqb. eexists _, _. split; [reflexivity | exact Heqb].
Qed.

Lemma canvas_draw_end_effect (env : Env) (model model' : Model)
    (eff : Effect) (w w' : World) :
  update env canvas_draw_end model w = Ok ((model', Some eff), w') ->
  exists ctx,
    eff = DrawEndEffect ctx (canvasViewSize model) (drawPointBuffer model) /\
    drawPointBuffer model <> [].
Proof.
  intro H. invert_update H.
  eexists. split; [reflexivity | discriminate].
Qed.

Lemma update_drawPoints_nonempty (env : Env) (msg : Msg) (model model' : Model)
    (eff : Effect) (w w' : World) :
  update env msg model w = Ok ((model', Some eff), w') ->
  forall pts, In pts (drawPointsArguments eff) -> pts <> [].
Proof.
  intros H pts Hin. destruct msg.
  all: try (invert_update H; cbn in Hin; contradiction).
  - apply canvas_draw_effect in H. destruct H as [ctx [newPt [-> _]]].
    cbn in Hin. destruct Hin as [<- | []]. intro E. apply app_eq_nil in E.
    destruct E; discriminate.
  - apply canvas_draw_end_effect in H. destruct H as [ctx [-> Hne]].
    cbn in Hin. destruct Hin as [<- | []]. exact Hne.
Qed.

(** C10.  [drawPoints] throws on an empty array, where it reads [points[0]],
    and on no other: its smoothing branch reads [points[i]] and
    [points[i + 1]] within bounds.  From a reachable model [canvas_draw] only
    calls it with six points, [canvas_draw_end] returns early on an empty
    buffer, and no effect of any message calls it with an empty array. *)
Theorem drawPoints_never_called_empty :
  (forall lineWidth, drawPoints lineWidth [] = None) /\
  (forall lineWidth pts, pts <> [] -> exists ops, drawPoints lineWidth pts = Some ops) /\
  (forall env wx wy model model' eff w w',
      reachable model ->
      update env (canvas_draw wx wy) model w = Ok ((model', Some eff), w') ->
      exists pts, drawPointsArguments eff = [pts] /\ length pts = 6%nat) /\
  (forall env model w,
      drawPointBuffer model = [] ->
      update env canvas_draw_end model w = Ok ((model, None), w)) /\
  (forall env msg model model' eff w w',
      reachable model ->
      update env msg model w = Ok ((model', Some eff), w') ->
      forall pts, In pts (drawPointsArguments eff) ->
      forall lineWidth, exists ops, drawPoints lineWidth pts = Some ops).
Proof.
  split; [reflexivity |].
  split; [exact drawPoints_nonempty |].
  split; [| split].
  - intros env wx wy model model' eff w w' Hr H.
    apply reachable_buffer_bound in Hr.
    apply canvas_draw_effect in H. destruct H as [ctx [newPt [-> Hge]]].
    eexists. split; [reflexivity |]. rewrite length_app. cbn. lia.
  - intros env model w H. unfold update. rewrite H. reflexivity.
  - intros env msg model model' eff w w' _ H pts Hin lineWidth.
    apply drawPoints_nonempty.
    exact (update_drawPoints_nonempty _ _ _ _ _ _ _ H pts Hin).
Qed.

(** C9, amended.  On the [game] page with the background canvas mounted:
    with fewer than 5 points buffered [canvas_draw] appends the new point and
    renders nothing; with 5 or more and a background context it renders the
    buffered points followed by the new one and resets the buffer to that
    point alone; [canvas_draw_end] on a non-empty buffer with a background
    context renders the buffer and empties it; without a background context
    either message leaves the model as it is and renders nothing.  A
    reachable model never buffers more than 5 points. *)
Theorem canvas_draw_buffering (env : Env) (model : Model) (w : World)
    (wx wy : Q) (el : HTMLCanvasElement) :
  page model = game ->
  backgroundCanvasElement model = Some el ->
  let buffer := drawPointBuffer model in
  let newPt := mkPoint (nextOid w) ((wx - rectLeft env) * devicePixelRatio env)
                       ((wy - rectTop env) * devicePixelRatio env) in
  let w1 := mkWorld (samples w) (randomIndex w) (S (nextOid w)) in
  ((length buffer < 5)%nat ->
   update env (canvas_draw wx wy) model w =
   Ok ((with_drawPointBuffer (buffer ++ [newPt]) model, None), w1)) /\
  (forall ctx, (5 <= length buffer)%nat -> backgroundCtx model = Some ctx ->
     update env (canvas_draw wx wy) model w =
     Ok ((with_drawPointBuffer [newPt] model,
          Some (DrawEffect ctx (canvasViewSize model) buffer newPt)), w1) /\
     drawPointsArguments (DrawEffect ctx (canvasViewSize model) buffer newPt)
     = [buffer ++ [newPt]]) /\
  ((5 <= length buffer)%nat -> backgroundCtx model = None ->
   update env (canvas_draw wx wy) model w = Ok ((model, None), w1)) /\
  (forall ctx, buffer <> [] -> backgroundCtx model = Some ctx ->
     update env canvas_draw_end model w =
     Ok ((with_drawPointBuffer [] model,
          Some (DrawEndEffect ctx (canvasViewSize model) buffer)), w) /\
     drawPointsArguments (DrawEndEffect ctx (canvasViewSize model) buffer) = [buffer]) /\
  (buffer <> [] -> backgroundCtx model = None ->
   update env canvas_draw_end model w = Ok ((model, None), w)) /\
  (reachable model -> (length buffer <= 5)%nat).
Proof.
  intros _ Hel buffer newPt w1.
  repeat split.
  - intro H. unfold update, bind, newPoint, ret. rewrite Hel.
    apply Nat.ltb_lt in H. fold buffer. rewrite H. reflexivity.
  - unfold update, bind, newPoint, ret. rewrite Hel.
    apply Nat.ltb_ge in H. fold buffer. rewrite H, H0. reflexivity.
  - intros H H0. unfold update, bind, newPoint, ret. rewrite Hel.
    apply Nat.ltb_ge in H. fold buffer. rewrite H, H0. reflexivity.
  - unfold update, ret. fold buffer. destruct buffer; [contradiction |].
    rewrite H0. reflexivity.
  - intros H H0. unfold update, ret. fold buffer. destruct buffer; [contradiction |].
    rewrite H0. reflexivity.
  - apply reachable_buffer_bound.
Qed.

Lemma runMessages_reachable (env : Env) (msgs : list Msg) :
  forall model w model' w',
    reachable model ->
    runMessages env msgs model w = Ok (model', w') ->
    reachable model'.
Proof.
  induction msgs as [| msg msgs IH]; intros model w model' w' Hr H.
  - injection H as <- _. exact Hr.
  - cbn [runMessages] in H. unfold bind in H.
    destruct (update env msg model w) as [[[m1 e1] w1] | |] eqn:E; try discriminate.
    apply (IH m1 w1 model' w'); [| exact H].
    exact (reachable_step env msg model m1 e1 w w1 Hr E).
Qed.

Lemma window_resize_during_game_witness :
  page playing = game /\
  update demoEnv (window_resize 640 480) playing playingWorld
  = Ok ((playing, None), playingWorld).
Proof.
  split; [reflexivity |].
  exact (window_resize_during_game demoEnv 640 480 playing playingWorld eq_refl).
Defined.

(** C9, the claim as stated fails: a reachable model on the [game] page with
    5 points buffered and no background context; [canvas_draw] renders
    nothing and keeps the 5 points, [canvas_draw_end] renders nothing and
    keeps them too.  And on a [game] page without a background canvas
    element [canvas_draw] throws. *)
Lemma canvas_draw_without_context :
  reachable stalled /\
  page stalled = game /\
  backgroundCtx stalled = None /\
  length (drawPointBuffer stalled) = 5%nat /\
  (exists w', update demoEnv (canvas_draw 150 135) stalled stalledWorld
              = Ok ((stalled, None), w')) /\
  update demoEnv canvas_draw_end stalled stalledWorld = Ok ((stalled, None), stalledWorld) /\
  page (with_backgroundCanvasElement None playing) = game /\
  update demoEnv (canvas_draw 150 135) (with_backgroundCanvasElement None playing)
         playingWorld = TypeError.
Proof.
  split.
  { apply (runMessages_reachable demoEnv stalledScript init demoWorld stalled stalledWorld).
    - exact reachable_init.
    - vm_compute. reflexivity. }
  split; [reflexivity |]. split; [reflexivity |]. split; [reflexivity |].
  split; [eexists; vm_compute; reflexivity |].
  split; [vm_compute; reflexivity |].
  split; reflexivity.
Qed.

Lemma canvas_draw_buffering_witness :
  page playing = game /\
  backgroundCanvasElement playing = Some (mkCanvas 1 (Some 1%nat)) /\
  reachable playing /\
  exists newPt w1,
    update demoEnv (canvas_draw 150 135) playing playingWorld
    = Ok ((with_drawPointBuffer [newPt] playing,
           Some (DrawEffect 1%nat (canvasViewSize playing) (drawPointBuffer playing) newPt)),
          w1) /\
    x newPt == 150 /\ y newPt == 135.
Proof.
  split; [reflexivity |]. split; [reflexivity |].
  split.
  { apply (runMessages_reachable demoEnv playingScript init demoWorld playing playingWorld).
    - exact reachable_init.
    - vm_compute. reflexivity. }
  pose proof (canvas_draw_buffering demoEnv playing playingWorld 150 135
                (mkCanvas 1 (Some 1%nat)) eq_refl eq_refl) as T.
  cbv zeta in T. destruct T as [_ [T _]].
  specialize (T 1%nat (Nat.le_refl 5) eq_refl). destruct T as [T _].
  eexists _, _. split; [exact T |]. split; reflexivity.
Defined.

(** ** Convex hull *)

(** *** The scans never empty the stack *)

Lemma hullPop_nonempty (p : Point) (stack : list Point) :
  stack <> [] -> hullPop p stack <> [].
Proof.
  induction stack as [| q below IH]; intro H; [contradiction |].
  cbn [hullPop]. destruct below as [| r below']; [discriminate |].
  destruct (hullRejects r q p); [apply IH; discriminate | discriminate].
Qed.

Lemma hullScan_snoc (l : list Point) (p : Point) :
  hullScan (l ++ [p]) = p :: hullPop p (hullScan l).
Proof. unfold hullScan. rewrite fold_left_app. reflexivity. Qed.

Lemma hullScan_two (l : list Point) :
  (2 <= length l)%nat -> (2 <= length (hullScan l))%nat.
Proof.
  intro H. destruct l as [| p l] using rev_ind; [cbn in H; lia |].
  rewrite hullScan_snoc. rewrite length_app in H. cbn in H.
  destruct l as [| q l'] using rev_ind; [cbn in H; lia |].
  rewrite hullScan_snoc.
  pose proof (hullPop_nonempty p (q :: hullPop q (hullScan l')) ltac:(discriminate)).
  destruct (hullPop p (q :: hullPop q (hullScan l'))); [contradiction | cbn; lia].
Qed.

Lemma makeHullPresorted_nonempty (pts : list Point) :
  pts <> [] -> makeHullPresorted pts <> [].
Proof.
  intro H. unfold makeHullPresorted.
  destruct (length pts <=? 1)%nat eqn:E; [exact H |].
  apply Nat.leb_gt in E.
  pose proof (hullScan_two pts ltac:(lia)) as H2.
  destruct (hullScan pts) as [| t [| t' st]]; try (cbn in H2; lia).
  cbn [tl].
  assert (Hu : rev (t' :: st) <> []).
  { intro E'. apply (f_equal (@length Point)) in E'. rewrite length_rev in E'.
    discriminate. }
  destruct (rev (t' :: st)) as [| u us]; [contradiction |].
  destruct us; [| discriminate].
  destruct (rev (tl (hullScan (rev pts)))) as [| l [| ? ?]]; try discriminate.
  destruct (_ && _); discriminate.
Qed.

(** *** The lexicographic order of [pointComparator] *)

Lemma lexlt_iff (a b : Point) :
  lexlt a b <-> x a < x b \/ (x a == x b /\ y a < y b).
Proof.
  unfold lexlt, pointComparator.
  destruct (Qltb (x a) (x b)) eqn:E1.
  { apply Qltb_lt in E1. intuition. }
  apply Qltb_ge in E1.
  destruct (Qltb (x b) (x a)) eqn:E2.
  { apply Qltb_lt in E2. split; [discriminate | lra]. }
  apply Qltb_ge in E2.
  destruct (Qltb (y a) (y b)) eqn:E3.
  { apply Qltb_lt in E3. split; [intros _; right; split; lra | reflexivity]. }
  apply Qltb_ge in E3.
  destruct (Qltb (y b) (y a)) eqn:E4; (split; [discriminate | lra]).
Qed.


Lemma lexlt_trans (a b c : Point) : lexlt a b -> lexlt b c -> lexlt a c.
Proof. rewrite !lexlt_iff. lra. Qed.




(** *** Orientation *)

Lemma ccw_det (r q p : Point) : ccw r q p = true <-> det r q p < 0.
Proof. unfold ccw, det, det3. rewrite Qltb_lt. lra. Qed.

Lemma hullRejects_ccw (r q p : Point) : hullRejects r q p = negb (ccw r q p).
Proof. unfold hullRejects, ccw, Qltb. now rewrite negb_involutive. Qed.






Lemma det3_reflect (rx ry qx qy px py : Q) :
  det3 (- rx) (- ry) (- qx) (- qy) (- px) (- py) == det3 rx ry qx qy px py.
Proof. unfold det3. ring. Qed.


(** *** Pairs and triples of a list, by index *)

Section Indexed.
Context {A : Type} (d : A).




Lemma sorted_pairsAt (P : A -> A -> Prop) (l : list A) :
  StronglySorted P l -> pairsAt d P l.
Proof.
  induction 1 as [| a l Hs IH Ha]; intros i j Hij; [cbn in Hij; lia |].
  destruct j as [| j]; [lia |]. cbn [length] in Hij.
  destruct i as [| i]; cbn [nth].
  - rewrite Forall_forall in Ha. apply Ha, nth_In. lia.
  - apply IH. lia.
Qed.
End Indexed.

(** *** Sorted lists *)

Section SortedLists.
Context {A : Type} (lt : A -> A -> Prop).

Lemma sorted_app_lt (l1 l2 : list A) :
  StronglySorted lt (l1 ++ l2) ->
  forall a b, In a l1 -> In b l2 -> lt a b.
Proof.
  induction l1 as [| c l1 IH]; intros H a b Ha Hb; [contradiction |].
  cbn in H. apply StronglySorted_inv in H. destruct H as [Hs Hc].
  destruct Ha as [<- | Ha].
  - rewrite Forall_forall in Hc. apply Hc, in_or_app. now right.
  - now apply IH.
Qed.

Lemma sorted_app_parts (l1 l2 : list A) :
  StronglySorted lt (l1 ++ l2) -> StronglySorted lt l1 /\ StronglySorted lt l2.
Proof.
  induction l1 as [| c l1 IH]; intro H.
  - split; [constructor | exact H].
  - cbn in H. apply StronglySorted_inv in H. destruct H as [Hs Hc].
    destruct (IH Hs) as [H1 H2]. split; [| exact H2].
    constructor; [exact H1 |].
    rewrite Forall_forall in *. intros b Hb. apply Hc, in_or_app. now left.
Qed.


Hypothesis lt_irrefl : forall a, ~ lt a a.
Hypothesis lt_asym : forall a b, lt a b -> ~ lt b a.


End SortedLists.

(** *** One scan of the hull over a sorted list

    If, seen from a kept point [r], the turn to a later point [p] through [q]
    is counter-clockwise exactly when [q] is to be kept, the scan keeps the
    points to be kept, under the point visited last. *)

Section Scan.
Variable lt : Point -> Point -> Prop.
Variable keep : Point -> bool.
Variable pts : list Point.
Hypothesis pts_sorted : StronglySorted lt pts.
Hypothesis turn :
  forall r q p, In r pts -> In q pts -> In p pts ->
                lt r q -> lt q p -> keep r = true -> ccw r q p = keep q.

End Scan.

(** *** A convex polygon listed from its lowest vertex

    [poly] lists the polygon counter-clockwise from its vertex [L], the
    lowest in the order of [pointComparator]; the highest vertex, [R], stands
    at index [m]. *)

Section ConvexPosition.
Variable poly : list Point.
Variable m : nat.
Variable d : Point.
Let v (i : nat) : Point := nth i poly d.
Let n : nat := length poly.
Hypothesis m_range : (0 < m < n)%nat.
Hypothesis tri : triplesAt d (fun a b c => ccw a b c = true) poly.
Hypothesis L_min : forall i, (0 < i < n)%nat -> lexlt (v 0) (v i).
Hypothesis R_max : forall i, (i < n)%nat -> i <> m -> lexlt (v i) (v m).










End ConvexPosition.

(** *** Lists by index, rotation, reversal *)




Lemma sorted_snoc {A : Type} (lt : A -> A -> Prop) (l : list A) (a : A) :
  StronglySorted lt l -> (forall b, In b l -> lt b a) -> StronglySorted lt (l ++ [a]).
Proof.
  induction 1 as [| c l Hs IH Hc]; intro Ha; cbn [app].
  - constructor; constructor.
  - constructor.
    + apply IH. intros b Hb. apply Ha. now right.
    + rewrite Forall_forall in *. intros b Hb. apply in_app_or in Hb.
      destruct Hb as [Hb | [<- | []]]; [now apply Hc | apply Ha; now left].
Qed.

Lemma sorted_rev {A : Type} (lt : A -> A -> Prop) (l : list A) :
  StronglySorted lt l -> StronglySorted (fun a b => lt b a) (rev l).
Proof.
  induction 1 as [| a l Hs IH Ha]; cbn [rev]; [constructor |].
  apply sorted_snoc; [exact IH |].
  rewrite Forall_forall in Ha. intros b Hb. apply Ha, in_rev, Hb.
Qed.




(** *** The hull of a convex polygon listed from its lowest vertex *)





(** *** Turns along a monotone chain *)

(** Along a chain whose abscissas do not decrease, two successive
    counter-clockwise turns make every turn among the four points
    counter-clockwise. *)
Lemma four_points_core (BC BD CD b c d : Q) :
  BC < 0 -> CD + BC - BD < 0 ->
  BC * d == BD * c - CD * b ->
  0 <= b -> b <= c -> c <= d ->
  ~ (b == 0 /\ c == 0) ->
  BD < 0 /\ CD < 0.
Proof.
  intros H1 H2 E Hb Hbc Hcd Hdeg.
  assert (T1 : BC * d <= BC * c) by nra.
  split.
  - destruct (Qlt_le_dec BD 0) as [Hlt | Hge]; [exact Hlt | exfalso].
    assert (T2 : CD * b <= (BD - BC) * b) by nra.
    assert (T3 : 0 <= BD * (c - b)) by nra.
    assert (T4 : 0 <= BC * (c - b)) by lra.
    assert (T5 : c == b) by nra.
    assert (E' : BC * d == (BD - CD) * b) by (rewrite E, T5; ring).
    assert (T6 : BC * b <= (BD - CD) * b) by nra.
    assert (T7 : 0 <= BC * (d - b)) by lra.
    assert (T8 : d == b) by nra.
    assert (T9 : (BD - CD - BC) * b == 0) by (rewrite T8 in E'; lra).
    assert (T10 : b == 0) by nra.
    apply Hdeg. split; lra.
  - destruct (Qlt_le_dec CD 0) as [Hlt | Hge]; [exact Hlt | exfalso].
    assert (T2 : (CD + BC) * c <= BD * c) by nra.
    assert (T3 : 0 <= CD * (c - b)) by nra.
    assert (T4 : BC * c <= BC * d) by lra.
    assert (T5 : 0 <= BC * (d - c)) by lra.
    assert (T6 : d == c) by nra.
    assert (T7 : (BD - CD - BC) * c <= 0).
    { assert (BC * c == BD * c - CD * b) by (rewrite <- E, T6; ring). lra. }
    assert (T8 : c == 0) by nra.
    apply Hdeg. split; lra.
Qed.

Lemma four_points (ax ay bx by_ cx cy dx dy : Q) :
  det3 ax ay bx by_ cx cy < 0 ->
  det3 bx by_ cx cy dx dy < 0 ->
  ax <= bx -> bx <= cx -> cx <= dx ->
  det3 ax ay bx by_ dx dy < 0 /\ det3 ax ay cx cy dx dy < 0.
Proof.
  unfold det3. intros H1 H2 Hab Hbc Hcd.
  apply (four_points_core
           ((bx - ax) * (cy - ay) - (by_ - ay) * (cx - ax))
           ((bx - ax) * (dy - ay) - (by_ - ay) * (dx - ax))
           ((cx - ax) * (dy - ay) - (cy - ay) * (dx - ax))
           (bx - ax) (cx - ax) (dx - ax)); try lra.
  intros [Eb Ec].
  assert (Eb' : bx == ax) by lra. assert (Ec' : cx == ax) by lra.
  assert ((bx - ax) * (cy - ay) - (by_ - ay) * (cx - ax) == 0)
    by (rewrite Eb', Ec'; ring).
  lra.
Qed.

Lemma four_points_back (ax ay bx by_ cx cy dx dy : Q) :
  det3 ax ay bx by_ cx cy < 0 ->
  det3 bx by_ cx cy dx dy < 0 ->
  bx <= ax -> cx <= bx -> dx <= cx ->
  det3 ax ay bx by_ dx dy < 0 /\ det3 ax ay cx cy dx dy < 0.
Proof.
  intros H1 H2 Hab Hbc Hcd.
  rewrite <- (det3_reflect ax ay bx by_ dx dy), <- (det3_reflect ax ay cx cy dx dy).
  apply four_points; rewrite ?det3_reflect; first [assumption | lra].
Qed.

(** *** The stack of a scan, whatever the points

    [before a b] says that [a] may be visited before [b]: the abscissas do
    not decrease in the first scan and do not increase in the second. *)

Lemma hullPop_suffix (p : Point) (stack : list Point) :
  exists popped, stack = popped ++ hullPop p stack.
Proof.
  induction stack as [| q below IH]; [exists []; reflexivity |].
  cbn [hullPop]. destruct below as [| r below']; [exists []; reflexivity |].
  destruct (hullRejects r q p).
  - destruct IH as [popped IH]. exists (q :: popped). cbn [app]. now f_equal.
  - exists []. reflexivity.
Qed.

Lemma hullPop_accepts (p : Point) (stack : list Point) :
  match hullPop p stack with
  | q :: r :: _ => ccw r q p = true
  | _ => True
  end.
Proof.
  induction stack as [| q below IH]; [exact I |].
  cbn [hullPop]. destruct below as [| r below']; [exact I |].
  destruct (hullRejects r q p) eqn:E; [exact IH |].
  rewrite hullRejects_ccw in E. now apply negb_false_iff in E.
Qed.

Lemma last_app_nonempty {A : Type} (d : A) (l1 l2 : list A) :
  l2 <> [] -> last (l1 ++ l2) d = last l2 d.
Proof.
  intro H. induction l1 as [| a l1 IH]; [reflexivity |].
  cbn [app]. destruct (l1 ++ l2) eqn:E.
  - apply app_eq_nil in E. destruct E. contradiction.
  - rewrite <- IH. reflexivity.
Qed.

Lemma hullPop_bottom (p d : Point) (stack : list Point) :
  stack <> [] -> last (hullPop p stack) d = last stack d.
Proof.
  intro H. destruct (hullPop_suffix p stack) as [popped E].
  pose proof (hullPop_nonempty p stack H) as Hne.
  rewrite E at 2. symmetry. now apply last_app_nonempty.
Qed.

Section ScanStack.
Variable before : Point -> Point -> Prop.
Hypothesis four :
  forall a b c d,
    det a b c < 0 -> det b c d < 0 ->
    before a b -> before b c -> before c d ->
    det a b d < 0 /\ det a c d < 0.
Variable d0 : Point.

Lemma stackConvex_suffix (popped s : list Point) :
  stackConvex before d0 (popped ++ s) -> stackConvex before d0 s.
Proof.
  intros [Ht Hp]. split.
  - intros i j k Hijk Hk.
    pose proof (Ht (length popped + i) (length popped + j) (length popped + k))%nat as H.
    rewrite !app_nth2_plus in H. apply H; [lia | rewrite length_app; lia].
  - intros i j Hij.
    pose proof (Hp (length popped + i) (length popped + j))%nat as H.
    rewrite !app_nth2_plus in H. apply H. rewrite length_app. lia.
Qed.

Lemma stackConvex_push (p : Point) (t : list Point) :
  stackConvex before d0 t ->
  Forall (fun a => before a p) t ->
  match t with q :: r :: _ => det r q p < 0 | _ => True end ->
  stackConvex before d0 (p :: t).
Proof.
  intros [Ht Hp] Hb Htop.
  assert (Hbp : forall i, (i < length t)%nat -> before (nth i t d0) p).
  { intros i Hi. rewrite Forall_forall in Hb. apply Hb, nth_In, Hi. }
  assert (Hpairs : pairsAt d0 (fun a b => before b a) (p :: t)).
  { intros i j Hij. cbn [length] in Hij. destruct j as [| j]; [lia |].
    destruct i as [| i]; cbn [nth]; [apply Hbp; lia | apply Hp; lia]. }
  split; [| exact Hpairs].
  assert (S1 : forall k, (1 <= k < length t)%nat -> det (nth k t d0) (nth 0 t d0) p < 0).
  { intros k Hk. destruct t as [| q [| r t']]; try (cbn in Hk; lia).
    destruct (Nat.eq_dec k 1) as [-> | Hk1]; [exact Htop |].
    apply (four (nth k (q :: r :: t') d0) r q p).
    - apply (Ht 0 1 k)%nat; lia.
    - exact Htop.
    - apply (Hp 1 k)%nat. lia.
    - apply (Hp 0 1)%nat. cbn. lia.
    - apply (Hbp 0%nat). cbn. lia. }
  intros i j k Hijk Hk. cbn [length] in Hk.
  destruct k as [| k]; [lia |]. destruct j as [| j]; [lia |].
  destruct i as [| i]; cbn [nth]; [| apply Ht; lia].
  destruct (Nat.eq_dec j 0) as [-> | Hj]; [apply S1; lia |].
  apply (four (nth k t d0) (nth j t d0) (nth 0 t d0) p).
  - apply (Ht 0 j k)%nat; lia.
  - apply S1. lia.
  - apply Hp. lia.
  - apply Hp. lia.
  - apply Hbp. lia.
Qed.

Lemma hullScan_scanned (l : list Point) :
  StronglySorted before l ->
  NoDup (map oid l) ->
  scanned before d0 l (hullScan l).
Proof.
  induction l as [| p l IH] using rev_ind; intros Hs Hnd.
  - split; [split |].
    + intros i j k _ Hk. cbn in Hk. lia.
    + intros i j Hij. cbn in Hij. lia.
    + split; [intros a Ha; exact Ha |].
      split; [constructor | intro H; contradiction].
  - rewrite hullScan_snoc.
    destruct (sorted_app_parts before _ _ Hs) as [Hsl _].
    assert (Hndl : NoDup (map oid l)).
    { rewrite map_app in Hnd. now apply NoDup_app_remove_r in Hnd. }
    destruct (IH Hsl Hndl) as [Hconv [Hincl [Hnds Hends]]].
    destruct (hullPop_suffix p (hullScan l)) as [popped E].
    set (t := hullPop p (hullScan l)) in *.
    assert (Hinclt : incl t l).
    { intros a Ha. apply Hincl. rewrite E. apply in_or_app. now right. }
    assert (Hconvt : stackConvex before d0 t) by (rewrite E in Hconv; now apply stackConvex_suffix in Hconv).
    assert (Hbp : Forall (fun a => before a p) t).
    { apply Forall_forall. intros a Ha.
      apply (sorted_app_lt before _ _ Hs a p); [now apply Hinclt | now left]. }
    assert (Hpush : stackConvex before d0 (p :: t)).
    { apply stackConvex_push; try assumption.
      pose proof (hullPop_accepts p (hullScan l)) as Hacc. fold t in Hacc.
      destruct t as [| q [| r t']]; try exact I. now apply ccw_det. }
    split; [exact Hpush |].
    split.
    { intros a [<- | Ha]; apply in_or_app; [right; now left | left; now apply Hinclt]. }
    split.
    { cbn [map]. constructor.
      - intro Hin. apply in_map_iff in Hin. destruct Hin as [a [Ea Ha]].
        rewrite map_app in Hnd. cbn [map] in Hnd.
        apply NoDup_remove_2 in Hnd. rewrite app_nil_r in Hnd. apply Hnd.
        rewrite <- Ea. apply in_map, Hinclt, Ha.
      - rewrite E, map_app in Hnds. now apply NoDup_app_remove_l in Hnds. }
    intros _. split; [cbn [hd]; now rewrite last_last |].
    split; [| discriminate].
    destruct l as [| a l'].
    + cbn. reflexivity.
    + destruct (Hends ltac:(discriminate)) as [_ [Hlast Hne]].
      cbn [app hd]. cbn [hd] in Hlast. rewrite <- Hlast.
      change (last (p :: t) d0) with (last ([p] ++ t) d0).
      rewrite last_app_nonempty by (apply hullPop_nonempty, Hne).
      apply hullPop_bottom, Hne.
Qed.
End ScanStack.

(** *** The hull lists no point twice *)

Lemma last_as_nth {A : Type} (d : A) (l : list A) :
  last l d = nth (length l - 1) l d.
Proof.
  induction l as [| a l IH]; [reflexivity |].
  destruct l as [| b l']; [reflexivity |].
  change (last (a :: b :: l') d) with (last (b :: l') d). rewrite IH.
  cbn [length]. replace (S (S (length l')) - 1)%nat with (S (S (length l') - 1)) by lia.
  reflexivity.
Qed.

Lemma last_rev_hd {A : Type} (d : A) (l : list A) : last (rev l) d = hd d l.
Proof. destruct l as [| a l]; [reflexivity |]. cbn [rev hd]. apply last_last. Qed.

Lemma hd_rev_last {A : Type} (d : A) (l : list A) : hd d (rev l) = last l d.
Proof. rewrite <- (rev_involutive l) at 2. now rewrite last_rev_hd. Qed.

Lemma same_oid_same_point (l : list Point) (a b : Point) :
  NoDup (map oid l) -> In a l -> In b l -> oid a = oid b -> a = b.
Proof.
  induction l as [| c l IH]; intros Hnd Ha Hb E; [contradiction |].
  cbn [map] in Hnd. apply NoDup_cons_iff in Hnd. destruct Hnd as [Hc Hnd].
  destruct Ha as [<- | Ha], Hb as [<- | Hb].
  - reflexivity.
  - exfalso. apply Hc. rewrite E. now apply in_map.
  - exfalso. apply Hc. rewrite <- E. now apply in_map.
  - now apply IH.
Qed.

Lemma det_reverse (a b c : Point) : det c b a == - det a b c.
Proof. unfold det, det3. ring. Qed.

Lemma four_forward (a b c d : Point) :
  det a b c < 0 -> det b c d < 0 ->
  x a <= x b -> x b <= x c -> x c <= x d ->
  det a b d < 0 /\ det a c d < 0.
Proof. unfold det. apply four_points. Qed.

Lemma four_backward (a b c d : Point) :
  det a b c < 0 -> det b c d < 0 ->
  x b <= x a -> x c <= x b -> x d <= x c ->
  det a b d < 0 /\ det a c d < 0.
Proof. unfold det. apply four_points_back. Qed.

(** A point strictly inside the stack lies strictly on one side of the chord
    from the stack's bottom to its top. *)
Lemma stack_chord (before : Point -> Point -> Prop) (d0 : Point)
    (top a : Point) (rest : list Point) :
  stackConvex before d0 (top :: rest) ->
  In a rest -> a <> last (top :: rest) d0 ->
  det (last (top :: rest) d0) a top < 0.
Proof.
  intros [Ht _] Ha Hlast.
  destruct (In_nth _ _ d0 Ha) as [j [Hj Ej]].
  rewrite last_as_nth in *. cbn [length] in *.
  replace (S (length rest) - 1)%nat with (length rest) in * by lia.
  assert (S j <> length rest).
  { intro E. apply Hlast. rewrite <- E. cbn [nth]. now symmetry. }
  pose proof (Ht 0 (S j) (length rest))%nat as H0. cbn [nth length] in H0.
  rewrite Ej in H0. apply H0; lia.
Qed.

Lemma makeHullPresorted_distinct (l : list Point) :
  StronglySorted (fun a b => x a <= x b) l ->
  NoDup (map oid l) ->
  NoDup (map oid (makeHullPresorted l)) /\ incl (makeHullPresorted l) l.
Proof.
  intros Hs Hnd. unfold makeHullPresorted.
  destruct (length l <=? 1)%nat eqn:Elen.
  { split; [exact Hnd | intros a Ha; exact Ha]. }
  apply Nat.leb_gt in Elen.
  set (d0 := mkPoint 0 0 0).
  assert (Hl : l <> []) by (destruct l; [cbn in Elen; lia | discriminate]).
  assert (Hrl : rev l <> []).
  { intro E. apply (f_equal (@length Point)) in E. rewrite length_rev in E.
    cbn in E. lia. }
  pose proof (hullScan_scanned (fun a b => x a <= x b) four_forward d0 l Hs Hnd) as S1.
  assert (Hsr : StronglySorted (fun a b => x b <= x a) (rev l)) by now apply sorted_rev.
  assert (Hndr : NoDup (map oid (rev l))) by (rewrite map_rev; now apply NoDup_rev).
  pose proof (hullScan_scanned (fun a b => x b <= x a) four_backward d0 (rev l) Hsr Hndr)
    as S2.
  destruct S1 as [C1 [I1 [N1 E1]]]. destruct (E1 Hl) as [Htop1 [Hbot1 Hne1]].
  destruct S2 as [C2 [I2 [N2 E2]]]. destruct (E2 Hrl) as [Htop2 [Hbot2 Hne2]].
  rewrite last_rev_hd in Htop2. rewrite hd_rev_last in Hbot2.
  destruct (hullScan l) as [| R U] eqn:EU; [contradiction |].
  destruct (hullScan (rev l)) as [| L D] eqn:ED; [contradiction |].
  cbn [hd] in Htop1, Htop2. cbn [tl].
  cbn [map] in N1, N2. apply NoDup_cons_iff in N1, N2.
  destruct N1 as [HR N1], N2 as [HL N2].
  assert (IU : incl (rev U) l).
  { intros a Ha. apply I1. right. now apply in_rev. }
  assert (ID : incl (rev D) l).
  { intros a Ha. apply in_rev, I2. right. now apply in_rev. }
  assert (NU : NoDup (map oid (rev U))) by (rewrite map_rev; now apply NoDup_rev).
  assert (ND : NoDup (map oid (rev D))) by (rewrite map_rev; now apply NoDup_rev).
  assert (Hboth : NoDup (map oid (rev U ++ rev D)) /\ incl (rev U ++ rev D) l).
  { split; [| now apply incl_app].
    rewrite map_app. apply NoDup_app; try assumption.
    intros o Ho Ho'. apply in_map_iff in Ho, Ho'.
    destruct Ho as [a [Ea Ha]], Ho' as [b [Eb Hb]].
    assert (a = b).
    { apply (same_oid_same_point l); [exact Hnd | now apply IU | now apply ID | congruence]. }
    subst b. apply in_rev in Ha, Hb.
    assert (HaL : a <> last (R :: U) d0).
    { rewrite Hbot1, <- Htop2. intros ->. apply HL. now apply in_map. }
    assert (HaR : a <> last (L :: D) d0).
    { rewrite Hbot2, <- Htop1. intros ->. apply HR. now apply in_map. }
    pose proof (stack_chord _ d0 R a U C1 Ha HaL) as G1.
    pose proof (stack_chord _ d0 L a D C2 Hb HaR) as G2.
    rewrite Hbot1, <- Htop2 in G1. rewrite Hbot2, <- Htop1 in G2.
    pose proof (det_reverse L a R). lra. }
  destruct (rev U) as [| u [| u' us]]; try exact Hboth.
  destruct (rev D) as [| lo [| lo' los]]; try exact Hboth.
  destruct (_ && _); [| exact Hboth].
  split; [exact NU | exact IU].
Qed.

(** ** Shape generator *)

(** *** Sorting *)

Lemma sortInsert_perm {A : Type} (cmp : A -> A -> Z) (a : A) (l : list A) :
  Permutation (sortInsert cmp a l) (a :: l).
Proof.
  induction l as [| b l IH]; cbn [sortInsert]; [apply Permutation_refl |].
  destruct (cmp a b <=? 0)%Z; [apply Permutation_refl |].
  rewrite IH. apply perm_swap.
Qed.

Lemma arraySort_perm {A : Type} (cmp : A -> A -> Z) (l : list A) :
  Permutation (arraySort cmp l) l.
Proof.
  induction l as [| a l IH]; [apply Permutation_refl |].
  cbn. fold (arraySort cmp l). rewrite sortInsert_perm. now apply perm_skip.
Qed.

Lemma lexle_iff (a b : Point) :
  lexle a b <-> x a < x b \/ (x a == x b /\ y a <= y b).
Proof.
  unfold lexle, pointComparator.
  destruct (Qltb (x a) (x b)) eqn:E1.
  { apply Qltb_lt in E1. split; [tauto | lia]. }
  apply Qltb_ge in E1.
  destruct (Qltb (x b) (x a)) eqn:E2.
  { apply Qltb_lt in E2. split; [lia | lra]. }
  apply Qltb_ge in E2.
  destruct (Qltb (y a) (y b)) eqn:E3.
  { apply Qltb_lt in E3. split; [intros _; right; split; lra | lia]. }
  apply Qltb_ge in E3.
  destruct (Qltb (y b) (y a)) eqn:E4.
  { apply Qltb_lt in E4. split; [lia | lra]. }
  apply Qltb_ge in E4. split; [intros _; right; split; lra | lia].
Qed.

Lemma lexle_total (a b : Point) : lexle a b \/ lexle b a.
Proof. rewrite !lexle_iff. lra. Qed.

Lemma lexle_trans (a b c : Point) : lexle a b -> lexle b c -> lexle a c.
Proof. rewrite !lexle_iff. lra. Qed.

Lemma sortInsert_sorted (a : Point) (l : list Point) :
  StronglySorted lexle l -> StronglySorted lexle (sortInsert pointComparator a l).
Proof.
  induction 1 as [| b l Hs IH Hb]; cbn [sortInsert].
  - constructor; constructor.
  - destruct (pointComparator a b <=? 0)%Z eqn:E.
    + apply Z.leb_le in E. constructor; [now constructor |].
      constructor; [exact E |].
      rewrite Forall_forall in *. intros c Hc. apply (lexle_trans a b c E), Hb, Hc.
    + apply Z.leb_gt in E. constructor; [exact IH |].
      rewrite Forall_forall in *. intros c Hc.
      apply (Permutation_in _ (sortInsert_perm pointComparator a l)) in Hc.
      destruct Hc as [<- | Hc]; [| now apply Hb].
      destruct (lexle_total b a) as [H | H]; [exact H | unfold lexle in H; lia].
Qed.

Lemma arraySort_sorted (l : list Point) :
  StronglySorted lexle (arraySort pointComparator l).
Proof.
  induction l as [| a l IH]; [constructor |].
  cbn. fold (arraySort pointComparator l). now apply sortInsert_sorted.
Qed.

Lemma sorted_weaken {A : Type} (P Q : A -> A -> Prop) (l : list A) :
  (forall a b, P a b -> Q a b) -> StronglySorted P l -> StronglySorted Q l.
Proof.
  intros H. induction 1 as [| a l Hs IH Ha]; constructor; [exact IH |].
  rewrite Forall_forall in *. intros b Hb. now apply H, Ha.
Qed.

Lemma arraySort_abscissas (l : list Point) :
  StronglySorted (fun a b => x a <= x b) (arraySort pointComparator l).
Proof.
  apply (sorted_weaken lexle); [| apply arraySort_sorted].
  intros a b H. apply lexle_iff in H. lra.
Qed.

(** *** Allocation *)

Lemma makeRandomPoint_oid (viewPort : Size) (w w' : World) (p : Point) :
  makeRandomPoint viewPort w = Ok (p, w') ->
  oid p = nextOid w /\ nextOid w' = S (nextOid w).
Proof.
  unfold makeRandomPoint, bind, Math_random, newPoint. cbn.
  intro H. injection H as <- <-. split; reflexivity.
Qed.

Lemma pushTimes_oids (viewPort : Size) (n : nat) :
  forall w l w',
    pushTimes n (makeRandomPoint viewPort) w = Ok (l, w') ->
    map oid l = seq (nextOid w) n /\ nextOid w' = (nextOid w + n)%nat.
Proof.
  induction n as [| n IH]; intros w l w' H; cbn [pushTimes] in H.
  - injection H as <- <-. split; [reflexivity | lia].
  - unfold bind, ret in H.
    destruct (makeRandomPoint viewPort w) as [[a w1] | |] eqn:Ea; try discriminate.
    destruct (pushTimes n (makeRandomPoint viewPort) w1) as [[rest w2] | |] eqn:Er;
      try discriminate.
    injection H as <- <-.
    destruct (makeRandomPoint_oid _ _ _ _ Ea) as [Ho Hw].
    destruct (IH _ _ _ Er) as [Hm Hn]. rewrite Hw in Hm, Hn.
    split; [cbn [map seq]; now rewrite Ho, Hm | lia].
Qed.

Lemma splice_perm {A : Type} (start : Z) (item : A) (l : list A) :
  Permutation (splice start item l) (item :: l).
Proof.
  unfold splice.
  set (k := if (start <? 0)%Z then _ else _).
  rewrite <- (firstn_skipn k l) at 3.
  symmetry. apply Permutation_middle.
Qed.

Lemma keepsSamples_ret {A : Type} (a : A) : keepsSamples (ret a).
Proof. intros w a' w' H. injection H as _ <-. reflexivity. Qed.

Lemma keepsSamples_bind {A B : Type} (c : M A) (k : A -> M B) :
  keepsSamples c -> (forall a, keepsSamples (k a)) -> keepsSamples (bind c k).
Proof.
  intros Hc Hk w b w' H. unfold bind in H.
  destruct (c w) as [[a w1] | |] eqn:E; try discriminate.
  rewrite (Hk a w1 b w' H). exact (Hc w a w1 E).
Qed.

Lemma keepsSamples_random : keepsSamples Math_random.
Proof. intros w a w' H. injection H as _ <-. reflexivity. Qed.

Lemma keepsSamples_newPoint (px py : Q) : keepsSamples (newPoint px py).
Proof. intros w a w' H. injection H as _ <-. reflexivity. Qed.

Lemma keepsSamples_throw {A : Type} : keepsSamples (@throwTypeError A).
Proof. intros w a w' H. discriminate. Qed.

Lemma keepsSamples_makeRandomPoint (viewPort : Size) :
  keepsSamples (makeRandomPoint viewPort).
Proof.
  unfold makeRandomPoint.
  repeat (apply keepsSamples_bind; [apply keepsSamples_random | intro]).
  apply keepsSamples_newPoint.
Qed.

Lemma keepsSamples_pushTimes {A : Type} (c : M A) (n : nat) :
  keepsSamples c -> keepsSamples (pushTimes n c).
Proof.
  intro Hc. induction n as [| n IH]; cbn [pushTimes].
  - apply keepsSamples_ret.
  - apply keepsSamples_bind; [exact Hc | intro].
    apply keepsSamples_bind; [exact IH | intro]. apply keepsSamples_ret.
Qed.

Lemma keepsSamples_shapeAttempt (viewPort : Size) :
  keepsSamples (shapeAttempt viewPort).
Proof.
  unfold shapeAttempt.
  apply keepsSamples_bind; [apply keepsSamples_random | intro].
  apply keepsSamples_bind;
    [apply keepsSamples_pushTimes, keepsSamples_makeRandomPoint | intro].
  do 2 (apply keepsSamples_bind; [apply keepsSamples_makeRandomPoint | intro]).
  do 2 (apply keepsSamples_bind; [apply keepsSamples_newPoint | intro]).
  destruct (arraySort pointComparator _) as [| top [| bottom [| ? ?]]];
    try apply keepsSamples_throw.
  do 2 (apply keepsSamples_bind; [apply keepsSamples_random | intro]).
  destruct (makeLines _); [| apply keepsSamples_throw].
  repeat match goal with
         | |- keepsSamples (if ?b then _ else _) => destruct b
         end; apply keepsSamples_ret.
Qed.

Lemma pushTimes_length {A : Type} (c : M A) (n : nat) :
  forall w l w', pushTimes n c w = Ok (l, w') -> length l = n.
Proof.
  induction n as [| n IH]; intros w l w' H; cbn [pushTimes] in H.
  - injection H as <- _. reflexivity.
  - unfold bind, ret in H.
    destruct (c w) as [[a w1] | |]; try discriminate.
    destruct (pushTimes n c w1) as [[rest w2] | |] eqn:E; try discriminate.
    injection H as <- _. cbn. f_equal. exact (IH _ _ _ E).
Qed.

Lemma sortInsert_length {A : Type} (cmp : A -> A -> Z) (a : A) (l : list A) :
  length (sortInsert cmp a l) = S (length l).
Proof.
  induction l as [| b l IH]; cbn; [reflexivity |].
  destruct (cmp a b <=? 0)%Z; cbn; [reflexivity | now rewrite IH].
Qed.

Lemma arraySort_length {A : Type} (cmp : A -> A -> Z) (l : list A) :
  length (arraySort cmp l) = length l.
Proof.
  induction l as [| a l IH]; cbn; [reflexivity |].
  fold (arraySort cmp l). now rewrite sortInsert_length, IH.
Qed.

Lemma splice_length {A : Type} (start : Z) (item : A) (l : list A) :
  length (splice start item l) = S (length l).
Proof.
  unfold splice. rewrite length_app. cbn [length].
  rewrite length_firstn, length_skipn. lia.
Qed.



Lemma existsb_false {A : Type} (f : A -> bool) (l : list A) :
  existsb f l = false -> forall a, In a l -> f a = false.
Proof.
  intros H a Hin. destruct (f a) eqn:E; [| reflexivity].
  assert (existsb f l = true) by (apply existsb_exists; eauto). congruence.
Qed.





Lemma demoSamples_range (k : nat) : 0 <= demoSamples k /\ demoSamples k < 1.
Proof.
  unfold demoSamples, Qle, Qlt. cbn [Qnum Qden].
  pose proof (Z.mod_pos_bound
                (Z.of_nat k * Z.of_nat k * 7919 + Z.of_nat k * 104729 + 1) 1000
                eq_refl).
  split; lia.
Defined.


(** * Further properties of the code *)

(** ** The comparator *)

(** X1.  [pointComparator] answers -1, 0 or 1; swapping its arguments negates
    the answer; it answers 0 exactly when both coordinates agree; and the
    order it defines is transitive, with and without ties. *)
Theorem pointComparator_total_order (a b c : Point) :
  (pointComparator a b = (-1)%Z \/ pointComparator a b = 0%Z \/
   pointComparator a b = 1%Z) /\
  pointComparator b a = (- pointComparator a b)%Z /\
  (pointComparator a b = 0%Z <-> x a == x b /\ y a == y b) /\
  (pointComparator a b = (-1)%Z -> pointComparator b c = (-1)%Z ->
   pointComparator a c = (-1)%Z) /\
  ((pointComparator a b <= 0)%Z -> (pointComparator b c <= 0)%Z ->
   (pointComparator a c <= 0)%Z).
Proof.
  split; [| split; [| split; [| split]]].
  - unfold pointComparator.
    destruct (Qltb (x a) (x b)); [now left |].
    destruct (Qltb (x b) (x a)); [now right; right |].
    destruct (Qltb (y a) (y b)); [now left |].
    destruct (Qltb (y b) (y a)); [now right; right | now right; left].
  - unfold pointComparator.
    destruct (Qltb (x a) (x b)) eqn:E1, (Qltb (x b) (x a)) eqn:E2;
      destruct (Qltb (y a) (y b)) eqn:E3, (Qltb (y b) (y a)) eqn:E4;
      try reflexivity;
      rewrite ?Qltb_lt, ?Qltb_ge in *; lra.
  - unfold pointComparator.
    destruct (Qltb (x a) (x b)) eqn:E1, (Qltb (x b) (x a)) eqn:E2;
      destruct (Qltb (y a) (y b)) eqn:E3, (Qltb (y b) (y a)) eqn:E4;
      rewrite ?Qltb_lt, ?Qltb_ge in *;
      (split; [intro H; try discriminate H; split; lra
              | intros [H1 H2]; try reflexivity; lra]).
  - exact (lexlt_trans a b c).
  - exact (lexle_trans a b c).
Qed.

(** ** The convex hull on any sorted input *)

Lemma NoDup_of_map {A B : Type} (f : A -> B) (l : list A) :
  NoDup (map f l) -> NoDup l.
Proof.
  induction l as [| a l IH]; intro H; [constructor |].
  cbn [map] in H. apply NoDup_cons_iff in H. destruct H as [Ha H].
  constructor; [| now apply IH].
  intro Hin. apply Ha. now apply in_map.
Qed.



Lemma hullScan_ends (l : list Point) (d : Point) :
  l <> [] ->
  hd d (hullScan l) = last l d /\ last (hullScan l) d = hd d l /\ hullScan l <> [].
Proof.
  induction l as [| p l IH] using rev_ind; intro Hne; [contradiction |].
  rewrite hullScan_snoc. cbn [hd]. rewrite last_last.
  split; [reflexivity |]. split; [| discriminate].
  destruct l as [| a l']; [reflexivity |].
  destruct (IH ltac:(discriminate)) as [_ [Hlast Hs]].
  cbn [app hd]. cbn [hd] in Hlast.
  pose proof (hullPop_bottom p d _ Hs) as Hb.
  pose proof (hullPop_nonempty p _ Hs) as Hn.
  set (t := hullPop p (hullScan (a :: l'))) in *.
  change (last (p :: t) d) with (last ([p] ++ t) d).
  rewrite last_app_nonempty by exact Hn.
  now rewrite Hb.
Qed.

Lemma rev_starts_with_last {A : Type} (d : A) (t : list A) :
  t <> [] -> exists u, rev t = last t d :: u.
Proof.
  intro Hne. destruct (rev t) as [| a u] eqn:E.
  - exfalso. apply Hne. apply (f_equal (@rev A)) in E.
    rewrite rev_involutive in E. exact E.
  - exists u. f_equal. apply (f_equal (@rev A)) in E.
    rewrite rev_involutive in E. rewrite E. cbn [rev]. now rewrite last_last.
Qed.

(** The chain a scan contributes to the hull: it starts with the point
    visited first. *)
Lemma hull_chain_start (l : list Point) (d : Point) :
  (2 <= length l)%nat ->
  exists u, rev (tl (hullScan l)) = hd d l :: u.
Proof.
  intro Hlen.
  assert (Hne : l <> []) by (destruct l; [cbn in Hlen; lia | discriminate]).
  destruct (hullScan_ends l d Hne) as [_ [Hlast _]].
  pose proof (hullScan_two l Hlen) as H2.
  destruct (hullScan l) as [| top [| q t]]; try (cbn in H2; lia).
  cbn [tl]. change (last (top :: q :: t) d) with (last (q :: t) d) in Hlast.
  rewrite <- Hlast. apply rev_starts_with_last. discriminate.
Qed.

(** X3.  On two points or more the result of [makeHullPresorted] starts with
    the first point it was given and holds the last one, unless it collapses
    to that first point alone, which then has the coordinates of the last. *)
Theorem makeHullPresorted_endpoints (l : list Point) (d : Point) :
  (2 <= length l)%nat ->
  hd d (makeHullPresorted l) = hd d l /\
  (In (last l d) (makeHullPresorted l) \/
   makeHullPresorted l = [hd d l] /\
   x (hd d l) == x (last l d) /\ y (hd d l) == y (last l d)).
Proof.
  intro Hlen. unfold makeHullPresorted.
  destruct (length l <=? 1)%nat eqn:E; [apply Nat.leb_le in E; lia |].
  destruct (hull_chain_start l d Hlen) as [u Hu].
  assert (Hlenr : (2 <= length (rev l))%nat) by (now rewrite length_rev).
  destruct (hull_chain_start (rev l) d Hlenr) as [v Hv].
  rewrite hd_rev_last in Hv.
  cbv zeta. rewrite Hu, Hv.
  destruct u as [| u' us].
  - destruct v as [| v' vs].
    + destruct (Qeq_bool (x (hd d l)) (x (last l d))
                && Qeq_bool (y (hd d l)) (y (last l d))) eqn:Eq.
      * apply andb_true_iff in Eq. destruct Eq as [E1 E2].
        apply Qeq_bool_iff in E1, E2.
        split; [reflexivity |]. right. split; [reflexivity |]. now split.
      * split; [reflexivity |]. left. cbn. tauto.
    + split; [reflexivity |]. left. cbn. tauto.
  - split; [reflexivity |]. left. apply in_or_app. right. now left.
Qed.

Lemma makeHullPresorted_endpoints_witness :
  hd (mkPoint 0 0 0) (makeHullPresorted pentagonSorted)
  = hd (mkPoint 0 0 0) pentagonSorted /\
  (In (last pentagonSorted (mkPoint 0 0 0)) (makeHullPresorted pentagonSorted) \/
   makeHullPresorted pentagonSorted = [hd (mkPoint 0 0 0) pentagonSorted] /\
   x (hd (mkPoint 0 0 0) pentagonSorted) == x (last pentagonSorted (mkPoint 0 0 0)) /\
   y (hd (mkPoint 0 0 0) pentagonSorted) == y (last pentagonSorted (mkPoint 0 0 0))).
Proof.
  apply makeHullPresorted_endpoints. cbn. lia.
Defined.







(** ** The hull covers the points it is given *)













Section ChainCover.
Variable before : Point -> Point -> Prop.
Hypothesis four :
  forall a b c d,
    det a b c < 0 -> det b c d < 0 ->
    before a b -> before b c -> before c d ->
    det a b d < 0 /\ det a c d < 0.
Hypothesis fan :
  forall a b c p,
    before a b -> before b c -> before c p ->
    det a b c < 0 -> 0 <= det a b p -> 0 <= det a c p.
Hypothesis under :
  forall s p a b q,
    before s p -> before a q -> before q b ->
    det a b q <= 0 -> det s p a <= 0 -> det s p b <= 0 -> det s p q <= 0.
Hypothesis before_trans : forall a b c, before a b -> before b c -> before a c.
Variable d0 : Point.


End ChainCover.



(** ** Edges, proximity and crossing *)

(** X7.  [makeLines] throws on the empty array and on no other.  For [n]
    points it returns [n] edges; edge [i] runs from point [i] to point
    [i + 1], and the last edge runs back to the first point. *)
Theorem makeLines_edges (pts : list Point) (d : Point) :
  (makeLines pts = None <-> pts = []) /\
  (forall lines, makeLines pts = Some lines ->
     length lines = length pts /\
     forall i, (i < length pts)%nat ->
       nth i lines (d, d) = (nth i pts d, nth (S i mod length pts) pts d)).
Proof.
  split.
  - destruct pts; cbn; split; intro H; try reflexivity; discriminate.
  - intros lines H. destruct pts as [| start rest]; [discriminate |].
    cbn [makeLines] in H.
    match type of H with
    | Some ?m = _ => assert (E : lines = m) by congruence
    end.
    clear H. subst lines.
    rewrite length_map, length_seq. split; [reflexivity |].
    intros i Hi.
    set (n := length (start :: rest)) in *.
    rewrite (nth_indep _ (d, d)
               ((fun i => (nth i (start :: rest) start,
                           if (i =? n - 1)%nat then start else nth i rest start)) 0%nat))
      by (rewrite length_map, length_seq; exact Hi).
    rewrite (map_nth (fun i => (nth i (start :: rest) start,
                                if (i =? n - 1)%nat then start else nth i rest start))).
    rewrite seq_nth by exact Hi. cbn [Nat.add].
    f_equal; [apply nth_indep; exact Hi |].
    destruct (i =? n - 1)%nat eqn:E.
    + apply Nat.eqb_eq in E. replace (S i) with n by lia.
      rewrite Nat.Div0.mod_same. reflexivity.
    + apply Nat.eqb_neq in E. rewrite Nat.mod_small by lia.
      cbn [nth]. apply nth_indep. subst n. cbn [length] in *. lia.
Qed.

(** X8.  [nearBy] does not depend on the order of its two points; a point is
    near itself exactly when the range is positive; what is near within a
    range is near within any larger one; and nothing is near within a range
    that is not positive. *)
Theorem nearBy_properties (a b : Point) (range range' : Q) :
  nearBy a b range = nearBy b a range /\
  nearBy a a range = Qltb 0 range /\
  (range <= range' -> nearBy a b range = true -> nearBy a b range' = true) /\
  (range <= 0 -> nearBy a b range = false).
Proof.
  unfold nearBy. cbv zeta.
  assert (Sx : Qabs (x b - x a) == Qabs (x a - x b)).
  { rewrite <- (Qabs_opp (x a - x b)). apply Qabs_wd. ring. }
  assert (Sy : Qabs (y b - y a) == Qabs (y a - y b)).
  { rewrite <- (Qabs_opp (y a - y b)). apply Qabs_wd. ring. }
  assert (Hlt : forall u v r, u == v -> Qltb u r = Qltb v r).
  { intros u v r E. apply bool_eq_iff. rewrite !Qltb_lt. now rewrite E. }
  split; [| split; [| split]].
  - now rewrite (Hlt _ _ range Sx), (Hlt _ _ range Sy).
  - assert (Zx : Qabs (x a - x a) == 0).
    { transitivity (Qabs 0); [apply Qabs_wd; ring | reflexivity]. }
    assert (Zy : Qabs (y a - y a) == 0).
    { transitivity (Qabs 0); [apply Qabs_wd; ring | reflexivity]. }
    rewrite (Hlt _ _ range Zx), (Hlt _ _ range Zy). apply andb_diag.
  - intros Hr H. apply andb_true_iff in H. destruct H as [H1 H2].
    apply Qltb_lt in H1, H2. apply andb_true_iff. split; apply Qltb_lt; lra.
  - intro Hr. apply andb_false_iff. left. apply Qltb_ge.
    pose proof (Qabs_nonneg (y b - y a)). lra.
Qed.

(** ** Random points, numbers and colours *)

Lemma Qfloor_unique (t : Q) (k : Z) :
  inject_Z k <= t -> t < inject_Z k + 1 -> Qfloor t = k.
Proof.
  intros H1 H2.
  assert (L : (k <= Qfloor t)%Z).
  { rewrite <- (Qfloor_Z k). now apply Qfloor_resp_le. }
  assert (U : (Qfloor t < k + 1)%Z).
  { rewrite Zlt_Qlt. rewrite inject_Z_plus.
    apply Qle_lt_trans with t; [apply Qfloor_le | exact H2]. }
  lia.
Qed.

Lemma Qfloor_bounds (t : Q) : inject_Z (Qfloor t) <= t /\ t < inject_Z (Qfloor t) + 1.
Proof.
  split; [apply Qfloor_le |].
  pose proof (Qlt_floor t) as H. now rewrite inject_Z_plus in H.
Qed.

(** A sample in [0, 1) scaled to an extent of at least 20, floored and moved
    10 from the edge. *)
Lemma inset_coordinate (r extent : Q) :
  0 <= r -> r < 1 -> 20 <= extent ->
  10 <= Math_floor (r * (extent - 20)) + 10 /\
  Math_floor (r * (extent - 20)) + 10 <= extent - 10 /\
  (20 < extent -> Math_floor (r * (extent - 20)) + 10 < extent - 10).
Proof.
  intros H0 H1 He. unfold Math_floor.
  destruct (Qfloor_bounds (r * (extent - 20))) as [Hl Hu].
  assert (Hnn : 0 <= r * (extent - 20)) by nra.
  assert (Hf : 0 <= inject_Z (Qfloor (r * (extent - 20)))).
  { change 0 with (inject_Z 0). rewrite <- Zle_Qle.
    rewrite <- (Qfloor_Z 0). apply Qfloor_resp_le. exact Hnn. }
  split; [lra |]. split; [nra |]. intro Hs. nra.
Qed.

Lemma makeRandomPoint_bounds (viewPort : Size) (w w' : World) (p : Point) :
  0 <= samples w (randomIndex w) < 1 ->
  0 <= samples w (S (randomIndex w)) < 1 ->
  20 <= width viewPort -> 20 <= height viewPort ->
  makeRandomPoint viewPort w = Ok (p, w') ->
  10 <= x p <= width viewPort - 10 /\ 10 <= y p <= height viewPort - 10.
Proof.
  intros [Hx0 Hx1] [Hy0 Hy1] Hw Hh H.
  unfold makeRandomPoint, bind, Math_random, newPoint in H. cbn in H.
  injection H as <- _. cbn [x y].
  destruct (inset_coordinate _ _ Hx0 Hx1 Hw) as [A1 [A2 _]].
  destruct (inset_coordinate _ _ Hy0 Hy1 Hh) as [B1 [B2 _]].
  repeat split; assumption.
Qed.

(** X10.  With samples in [0, 1) and a view port of at least 20 by 20,
    [makeRandomPoint] returns a fresh point with whole-number coordinates at
    least 10 away from every edge of the view port, strictly so on the far
    side when the extent exceeds 20; it draws two samples. *)
Theorem makeRandomPoint_range (viewPort : Size) (w : World) :
  (forall k, 0 <= samples w k < 1) ->
  20 <= width viewPort -> 20 <= height viewPort ->
  exists p,
    makeRandomPoint viewPort w
    = Ok (p, mkWorld (samples w) (S (S (randomIndex w))) (S (nextOid w))) /\
    oid p = nextOid w /\
    10 <= x p <= width viewPort - 10 /\
    10 <= y p <= height viewPort - 10 /\
    (20 < width viewPort -> x p < width viewPort - 10) /\
    (20 < height viewPort -> y p < height viewPort - 10) /\
    (exists n m : Z, x p == inject_Z n /\ y p == inject_Z m).
Proof.
  intros Hs Hw Hh.
  destruct (Hs (randomIndex w)) as [Hx0 Hx1].
  destruct (Hs (S (randomIndex w))) as [Hy0 Hy1].
  eexists. split; [reflexivity |]. cbn [oid x y samples randomIndex nextOid].
  destruct (inset_coordinate _ _ Hx0 Hx1 Hw) as [A1 [A2 A3]].
  destruct (inset_coordinate _ _ Hy0 Hy1 Hh) as [B1 [B2 B3]].
  repeat (split; try assumption).
  exists (Qfloor (samples w (randomIndex w) * (width viewPort - 20)) + 10)%Z,
         (Qfloor (samples w (S (randomIndex w)) * (height viewPort - 20)) + 10)%Z.
  unfold Math_floor. rewrite !inject_Z_plus. split; reflexivity.
Qed.

Lemma makeRandomPoint_range_witness :
  exists p,
    makeRandomPoint (mkSize 1200 670) demoWorld
    = Ok (p, mkWorld demoSamples 2 1) /\
    oid p = 0%nat /\
    10 <= x p <= 1200 - 10 /\
    10 <= y p <= 670 - 10 /\
    (20 < 1200 -> x p < 1200 - 10) /\
    (20 < 670 -> y p < 670 - 10) /\
    (exists n m : Z, x p == inject_Z n /\ y p == inject_Z m).
Proof.
  apply (makeRandomPoint_range (mkSize 1200 670) demoWorld).
  - exact demoSamples_range.
  - cbn. lra.
  - cbn. lra.
Defined.

Lemma randomBetween_value (min max : Z) (w : World) :
  randomBetween min max w
  = Ok ((min + Qfloor (samples w (randomIndex w) * inject_Z (max - min + 1)))%Z,
        mkWorld (samples w) (S (randomIndex w)) (nextOid w)).
Proof. reflexivity. Qed.

Lemma randomBetween_bounds (min max : Z) (r : Q) :
  (min <= max)%Z -> 0 <= r -> r < 1 ->
  (min <= min + Qfloor (r * inject_Z (max - min + 1)) <= max)%Z.
Proof.
  intros Hmm H0 H1.
  set (n := (max - min + 1)%Z).
  assert (Hn : 1 <= inject_Z n).
  { change 1 with (inject_Z 1). rewrite <- Zle_Qle. lia. }
  destruct (Qfloor_bounds (r * inject_Z n)) as [Hl Hu].
  assert (L : (0 <= Qfloor (r * inject_Z n))%Z).
  { rewrite <- (Qfloor_Z 0). apply Qfloor_resp_le. change (inject_Z 0) with 0. nra. }
  assert (U : (Qfloor (r * inject_Z n) < n)%Z).
  { rewrite Zlt_Qlt. apply Qle_lt_trans with (r * inject_Z n); [exact Hl | nra]. }
  lia.
Qed.

(** X11.  With [min <= max] and a sample [r] in [0, 1), [randomBetween]
    returns a whole number between [min] and [max], both included, and it
    returns [v] exactly when [r * (max - min + 1)] lies in
    [[v - min, v - min + 1)]: every value has an interval of samples of the
    same width. *)
Theorem randomBetween_uniform (min max : Z) (w : World) :
  (min <= max)%Z ->
  0 <= samples w (randomIndex w) < 1 ->
  let r := samples w (randomIndex w) in
  let w1 := mkWorld (samples w) (S (randomIndex w)) (nextOid w) in
  exists v,
    randomBetween min max w = Ok (v, w1) /\
    (min <= v <= max)%Z /\
    forall u,
      randomBetween min max w = Ok (u, w1) <->
      inject_Z (u - min) <= r * inject_Z (max - min + 1) /\
      r * inject_Z (max - min + 1) < inject_Z (u - min) + 1.
Proof.
  intros Hmm [H0 H1] r w1. rewrite randomBetween_value. fold r. fold w1.
  eexists. split; [reflexivity |].
  split; [now apply randomBetween_bounds |].
  intro u. split.
  - intro E.
    assert (Eu : (min + Qfloor (r * inject_Z (max - min + 1)))%Z = u) by congruence.
    rewrite <- Eu.
    match goal with
    | |- context [(min + ?F - min)%Z] => replace (min + F - min)%Z with F by lia
    end.
    apply Qfloor_bounds.
  - intros [Hl Hu]. rewrite (Qfloor_unique _ (u - min) Hl Hu).
    do 2 f_equal. lia.
Qed.

Lemma randomBetween_uniform_witness :
  exists v,
    randomBetween 0 255 demoWorld = Ok (v, mkWorld demoSamples 1 0) /\
    (0 <= v <= 255)%Z /\
    forall u,
      randomBetween 0 255 demoWorld = Ok (u, mkWorld demoSamples 1 0) <->
      inject_Z (u - 0) <= demoSamples 0 * inject_Z (255 - 0 + 1) /\
      demoSamples 0 * inject_Z (255 - 0 + 1) < inject_Z (u - 0) + 1.
Proof.
  apply (randomBetween_uniform 0 255 demoWorld).
  - lia.
  - exact (demoSamples_range 0).
Defined.

Lemma makeRandomColor_value (w : World) :
  makeRandomColor w
  = Ok (ColorRgb
          (0 + Qfloor (samples w (randomIndex w) * inject_Z (255 - 0 + 1)))
          (0 + Qfloor (samples w (S (randomIndex w)) * inject_Z (255 - 0 + 1)))
          (0 + Qfloor (samples w (S (S (randomIndex w))) * inject_Z (255 - 0 + 1))),
        mkWorld (samples w) (S (S (S (randomIndex w)))) (nextOid w)).
Proof. reflexivity. Qed.

(** X12.  With samples in [0, 1), [makeRandomColor] returns an [rgb] colour
    whose three channels are whole numbers from 0 to 255; it draws three
    samples and allocates nothing. *)
Theorem makeRandomColor_channels (w : World) :
  (forall k, 0 <= samples w k < 1) ->
  exists r g b,
    makeRandomColor w
    = Ok (ColorRgb r g b,
          mkWorld (samples w) (S (S (S (randomIndex w)))) (nextOid w)) /\
    (0 <= r <= 255)%Z /\ (0 <= g <= 255)%Z /\ (0 <= b <= 255)%Z.
Proof.
  intro Hs. rewrite makeRandomColor_value.
  eexists _, _, _. split; [reflexivity |].
  repeat split; apply randomBetween_bounds; try lia; apply Hs.
Qed.

Lemma makeRandomColor_channels_witness :
  exists r g b,
    makeRandomColor demoWorld = Ok (ColorRgb r g b, mkWorld demoSamples 3 0) /\
    (0 <= r <= 255)%Z /\ (0 <= g <= 255)%Z /\ (0 <= b <= 255)%Z.
Proof.
  apply (makeRandomColor_channels demoWorld). exact demoSamples_range.
Defined.

(** ** What the renderer draws *)

(** X13.  [drawShapeToCanvas] throws on a shape without points and on no
    other.  For [n] points it clears first only when asked to, moves to the
    first point, draws [n + 1] curves and strokes, and fills last only when
    asked to.  Curve [i] has point [i] as its control point and ends midway
    between point [i] and point [i + 1], the first point standing in past the
    end; the last curve so ends on the first point, where the path began. *)
Theorem drawShapeToCanvas_path (size : Size) (shape : Shape) (color : Color)
    (fill clear : bool) :
  (drawShapeToCanvas size shape color fill clear = None <-> points shape = []) /\
  (forall start rest, points shape = start :: rest ->
     exists curves,
       drawShapeToCanvas size shape color fill clear
       = Some ((if clear then [ctx_clearRect 0 0 (width size) (height size)] else [])
               ++ [ctx_lineWidth (getLineWidthForCanvasSize size);
                   ctx_lineCap "round"; ctx_strokeStyle color; ctx_fillStyle color;
                   ctx_beginPath; ctx_moveTo (x start) (y start)]
               ++ curves ++ [ctx_stroke] ++ (if fill then [ctx_fill] else [])) /\
       length curves = S (length (points shape)) /\
       (forall i, (i <= length (points shape))%nat ->
          nth i curves ctx_stroke
          = ctx_quadraticCurveTo
              (x (nth i (points shape) start)) (y (nth i (points shape) start))
              ((x (nth i (points shape) start) + x (nth (S i) (points shape) start)) / 2)
              ((y (nth i (points shape) start) + y (nth (S i) (points shape) start)) / 2)) /\
       (exists ex ey,
          last curves ctx_stroke = ctx_quadraticCurveTo (x start) (y start) ex ey /\
          ex == x start /\ ey == y start)).
Proof.
  unfold drawShapeToCanvas. split.
  - destruct (points shape); split; intro H; try reflexivity; discriminate.
  - intros start rest E. rewrite E.
    set (closed := start :: rest ++ [start]).
    assert (Hlen : length closed = S (length (start :: rest))).
    { unfold closed. cbn [length]. rewrite length_app. cbn. lia. }
    assert (Hnth : forall i, (i <= length (start :: rest))%nat ->
               nth i (map (shapeSegment start closed) (seq 0 (length closed))) ctx_stroke
               = ctx_quadraticCurveTo
                   (x (nth i (start :: rest) start)) (y (nth i (start :: rest) start))
                   ((x (nth i (start :: rest) start)
                     + x (nth (S i) (start :: rest) start)) / 2)
                   ((y (nth i (start :: rest) start)
                     + y (nth (S i) (start :: rest) start)) / 2)).
    { intros i Hi.
      rewrite (nth_indep _ ctx_stroke (shapeSegment start closed 0))
        by (rewrite length_map, length_seq; lia).
      rewrite (map_nth (shapeSegment start closed)).
      rewrite seq_nth by lia. cbn [Nat.add]. unfold shapeSegment.
      assert (Hcur : forall j, nth j closed start = nth j (start :: rest) start).
      { intro j. unfold closed. rewrite app_comm_cons.
        destruct (Nat.lt_ge_cases j (length (start :: rest))) as [Hj | Hj].
        - now rewrite app_nth1.
        - rewrite app_nth2 by exact Hj.
          rewrite (nth_overflow (start :: rest)) by exact Hj.
          destruct (j - length (start :: rest))%nat as [| [| k]]; reflexivity. }
      assert (Hnext : match nth_error closed (i + 1) with
                      | Some p => p
                      | None => start
                      end = nth (S i) (start :: rest) start).
      { rewrite <- Hcur. replace (i + 1)%nat with (S i) by lia.
        destruct (nth_error closed (S i)) as [p |] eqn:En.
        - symmetry. now apply nth_error_nth.
        - apply nth_error_None in En. now rewrite nth_overflow. }
      rewrite Hnext, Hcur. reflexivity. }
    eexists. split; [reflexivity |].
    split; [now rewrite length_map, length_seq |].
    split; [exact Hnth |].
    eexists _, _. split.
    + rewrite last_as_nth, length_map, length_seq.
      replace (length closed - 1)%nat with (length (start :: rest)) by lia.
      rewrite Hnth by lia.
      rewrite !nth_overflow by lia. reflexivity.
    + split; field.
Qed.

Lemma smoothSegments_seq (pts : list Point) (d : Point) (a m : nat) :
  (a + m < length pts)%nat ->
  smoothSegments pts (seq a m)
  = Some (map (fun i =>
                 ctx_quadraticCurveTo (x (nth i pts d)) (y (nth i pts d))
                   ((x (nth i pts d) + x (nth (S i) pts d)) / 2)
                   ((y (nth i pts d) + y (nth (S i) pts d)) / 2))
              (seq a m)).
Proof.
  revert a. induction m as [| m IH]; intros a H; [reflexivity |].
  cbn [seq smoothSegments map].
  destruct (nth_error pts a) as [pi |] eqn:Ei.
  2: { apply nth_error_None in Ei. lia. }
  destruct (nth_error pts (a + 1)) as [pj |] eqn:Ej.
  2: { apply nth_error_None in Ej. lia. }
  rewrite IH by lia. cbn [option_map].
  apply (nth_error_nth _ _ d) in Ei, Ej.
  replace (a + 1)%nat with (S a) in Ej by lia.
  now rewrite Ei, Ej.
Qed.

(** X14.  On one or two points [drawPoints] fills a disc of the line's width
    around the first point and ignores the second.  On [n >= 3] points it
    strokes one path of [n - 2] curves from the first point to the last:
    curve [k] has point [k + 1] as its control point and ends midway between
    points [k + 1] and [k + 2], and the final curve has point [n - 2] as its
    control point and ends on the last point. *)
Theorem drawPoints_path (lineWidth : Q) (pts : list Point) (d : Point) :
  let style := [ctx_fillStyle (ColorHex "#aaa"); ctx_strokeStyle (ColorHex "#aaa");
                ctx_lineJoin "round"; ctx_lineCap "round"] in
  ((1 <= length pts <= 2)%nat ->
   drawPoints lineWidth pts
   = Some (style ++ [ctx_beginPath;
                     ctx_arcFullCircle (x (hd d pts)) (y (hd d pts)) (lineWidth / 2);
                     ctx_closePath; ctx_fill])) /\
  ((3 <= length pts)%nat ->
   exists curves,
     drawPoints lineWidth pts
     = Some (style ++ [ctx_beginPath; ctx_moveTo (x (hd d pts)) (y (hd d pts))]
             ++ curves
             ++ [ctx_quadraticCurveTo
                   (x (nth (length pts - 2) pts d)) (y (nth (length pts - 2) pts d))
                   (x (last pts d)) (y (last pts d));
                 ctx_stroke]) /\
     length curves = (length pts - 3)%nat /\
     forall k, (k < length pts - 3)%nat ->
       nth k curves ctx_stroke
       = ctx_quadraticCurveTo
           (x (nth (S k) pts d)) (y (nth (S k) pts d))
           ((x (nth (S k) pts d) + x (nth (S (S k)) pts d)) / 2)
           ((y (nth (S k) pts d) + y (nth (S (S k)) pts d)) / 2)).
Proof.
  intro style. split.
  - intros [H1 H2]. unfold drawPoints.
    destruct pts as [| p0 rest]; [cbn in H1; lia |].
    assert (E : (length (p0 :: rest) <? 3)%nat = true) by (apply Nat.ltb_lt; lia).
    rewrite E. reflexivity.
  - intro H3. unfold drawPoints.
    assert (E : (length pts <? 3)%nat = false) by (apply Nat.ltb_ge; lia).
    rewrite E.
    destruct pts as [| p0 rest] eqn:Ep; [cbn in H3; lia |]. rewrite <- Ep in *.
    assert (E0 : nth_error pts 0 = Some p0) by (rewrite Ep; reflexivity).
    rewrite E0.
    rewrite (smoothSegments_seq pts d 1 (length pts - 3)) by lia.
    destruct (nth_error pts (length pts - 2)) as [pi |] eqn:Ei.
    2: { apply nth_error_None in Ei. lia. }
    destruct (nth_error pts (length pts - 2 + 1)) as [pj |] eqn:Ej.
    2: { apply nth_error_None in Ej. lia. }
    apply (nth_error_nth _ _ d) in Ei, Ej.
    replace (length pts - 2 + 1)%nat with (length pts - 1)%nat in Ej by lia.
    rewrite <- last_as_nth in Ej. rewrite <- Ei, <- Ej.
    assert (Eh : hd d pts = p0) by (rewrite Ep; reflexivity).
    rewrite Eh.
    eexists. split; [reflexivity |].
    split; [now rewrite length_map, length_seq |].
    intros k Hk.
    set (f := fun i : nat =>
                ctx_quadraticCurveTo (x (nth i pts d)) (y (nth i pts d))
                  ((x (nth i pts d) + x (nth (S i) pts d)) / 2)
                  ((y (nth i pts d) + y (nth (S i) pts d)) / 2)).
    rewrite (nth_indep _ ctx_stroke (f 0%nat)) by (rewrite length_map, length_seq; lia).
    rewrite (map_nth f). rewrite seq_nth by lia. reflexivity.
Qed.

(** ** The shape generator, whatever the samples *)

Lemma makeRandomPoint_value (viewPort : Size) (w : World) :
  makeRandomPoint viewPort w
  = Ok (mkPoint (nextOid w)
                (Math_floor (samples w (randomIndex w) * (width viewPort - 20)) + 10)
                (Math_floor (samples w (S (randomIndex w)) * (height viewPort - 20)) + 10),
        mkWorld (samples w) (S (S (randomIndex w))) (S (nextOid w))).
Proof. reflexivity. Qed.

Lemma pushTimes_returns (viewPort : Size) (n : nat) (w : World) :
  exists l w', pushTimes n (makeRandomPoint viewPort) w = Ok (l, w').
Proof.
  revert w. induction n as [| n IH]; intro w; cbn [pushTimes].
  - eexists _, _. reflexivity.
  - unfold bind. rewrite makeRandomPoint_value.
    destruct (IH (mkWorld (samples w) (S (S (randomIndex w))) (S (nextOid w))))
      as [l [w' E]].
    rewrite E. eexists _, _. reflexivity.
Qed.

Lemma arraySort_two {A : Type} (cmp : A -> A -> Z) (a b : A) :
  arraySort cmp [a; b] = if (cmp a b <=? 0)%Z then [a; b] else [b; a].
Proof. reflexivity. Qed.

Lemma makeLines_some (pts : list Point) :
  pts <> [] -> exists lines, makeLines pts = Some lines.
Proof. destruct pts; [contradiction | intros _; eexists; reflexivity]. Qed.

Lemma splice_nonempty {A : Type} (start : Z) (item : A) (l : list A) :
  splice start item l <> [].
Proof.
  intro E. apply (f_equal (@length A)) in E. rewrite splice_length in E.
  discriminate.
Qed.

Lemma shapeAttempt_returns (viewPort : Size) (w : World) :
  exists attempt w', shapeAttempt viewPort w = Ok (attempt, w').
Proof.
  unfold shapeAttempt, bind. unfold Math_random at 1. cbv beta iota.
  match goal with
  | |- context [pushTimes ?n ?c ?w0] =>
      destruct (pushTimes_returns viewPort n w0) as [l [w1 E]]; rewrite E
  end.
  rewrite !makeRandomPoint_value. unfold newPoint at 1 2. cbv beta iota.
  rewrite arraySort_two.
  match goal with
  | |- context [if ?b then [?p; ?q] else _] => destruct b
  end.
  all: unfold Math_random, ret; cbv beta iota.
  all: match goal with
       | |- context [makeLines ?pts] =>
           destruct (makeLines_some pts (splice_nonempty _ _ _)) as [lines El];
           rewrite El
       end.
  all: repeat match goal with
              | |- context [if ?b then _ else _] => destruct b
              end; eexists _, _; reflexivity.
Qed.

Lemma shapeAttempt_two_points (viewPort : Size) (w w' : World) (shape : Shape) :
  shapeAttempt viewPort w = Ok (Some shape, w') ->
  (2 <= length (points shape))%nat.
Proof.
  intro H. unfold shapeAttempt, bind, ret, throwTypeError in H.
  unfold Math_random at 1 in H. cbv beta iota in H.
  split_matches H; try discriminate H.
  injection H as <- _. cbn [points]. rewrite !splice_length. lia.
Qed.

(** *** A sample sequence on which no pass succeeds *)

Lemma pushTimes_constant (viewPort : Size) (r : Q) (n : nat) :
  forall w l w',
    (forall k, samples w k = r) ->
    pushTimes n (makeRandomPoint viewPort) w = Ok (l, w') ->
    forall p, In p l ->
      x p = Math_floor (r * (width viewPort - 20)) + 10 /\
      y p = Math_floor (r * (height viewPort - 20)) + 10.
Proof.
  induction n as [| n IH]; intros w l w' Hs H p Hp; cbn [pushTimes] in H.
  - injection H as <- _. contradiction.
  - unfold bind, ret in H. rewrite makeRandomPoint_value in H.
    destruct (pushTimes n (makeRandomPoint viewPort) _) as [[rest w2] | |] eqn:Er;
      try discriminate.
    injection H as <- _. destruct Hp as [<- | Hp].
    + cbn [x y]. rewrite !Hs. split; reflexivity.
    + eapply IH; [| exact Er | exact Hp]. intro k. exact (Hs k).
Qed.

Lemma shapeAttempt_quarter_restarts (w w' : World) (shape : Shape) :
  (forall k, samples w k = 1 # 4) ->
  shapeAttempt (mkSize 800 600) w <> Ok (Some shape, w').
Proof.
  intros Hs H. unfold shapeAttempt, bind, ret, throwTypeError in H.
  unfold Math_random at 1 in H. cbv beta iota in H.
  split_matches H; try discriminate H.
  subst.
  match goal with
  | E : pushTimes _ _ ?w0 = Ok (?l, ?w1) |- _ =>
      pose proof (pushTimes_oids _ _ _ _ _ E) as Hoids;
      assert (Hxy := pushTimes_constant _ (1 # 4) _ w0 _ _ (fun k => Hs k) E);
      pose proof (keepsSamples_pushTimes _ _ (keepsSamples_makeRandomPoint _) _ _ _ E) as Hk;
      pose proof (pushTimes_length _ _ _ _ _ E) as Hlen;
      clear E; rename l into randomPoints
  end.
  cbn [nextOid samples width height] in Hoids, Hk, Hxy. destruct Hoids as [Hoids Hnext].
  rewrite Hs in Hlen, Hoids, Hnext.
  change (Z.to_nat (10 + Qfloor ((1 # 4) * 6))) with 11%nat in Hlen, Hoids, Hnext.
  match goal with
  | E : arraySort pointComparator [?m0; ?m1] = [?top; ?bottom] |- _ =>
      pose proof (arraySort_perm pointComparator [m0; m1]) as Hnotch;
      rewrite E in Hnotch; clear E
  end.
  set (hull := makeHullPresorted (arraySort pointComparator randomPoints)) in *.
  assert (Hhull : hull <> []).
  { apply makeHullPresorted_nonempty. intro E.
    apply (f_equal (@length Point)) in E. rewrite arraySort_length in E.
    cbn in E. lia. }
  assert (Hsorted_nd : NoDup (map oid (arraySort pointComparator randomPoints))).
  { apply (Permutation_NoDup
             (Permutation_map oid (Permutation_sym (arraySort_perm pointComparator randomPoints)))).
    rewrite Hoids. apply seq_NoDup. }
  destruct (makeHullPresorted_distinct _ (arraySort_abscissas randomPoints) Hsorted_nd)
    as [_ Hhull_in]. fold hull in Hhull_in.
  destruct hull as [| h hull'] eqn:Eh; [contradiction |].
  assert (Hh : In h randomPoints).
  { apply (Permutation_in _ (arraySort_perm pointComparator randomPoints)).
    apply Hhull_in. now left. }
  destruct (Hxy h Hh) as [Hhx Hhy].
  assert (Hho : (oid h < nextOid w + 11)%nat).
  { apply (in_map oid) in Hh. rewrite Hoids in Hh. apply in_seq in Hh. lia. }
  match goal with
  | E : anyPointsNearBy ?l _ = false |- _ => set (pts := l) in *; rename E into Hn
  end.
  match type of Hnotch with
  | Permutation [?top; ?bottom] [?m0; ?m1] =>
      assert (Hp : Permutation pts (m1 :: m0 :: h :: hull'));
      [| assert (Hm : In m0 pts)
           by (apply (Permutation_in _ (Permutation_sym Hp)); right; now left);
         assert (Hhp : In h pts)
           by (apply (Permutation_in _ (Permutation_sym Hp)); right; right; now left);
         pose proof (existsb_false _ _ (existsb_false _ _ Hn m0 Hm) h Hhp) as Hf ]
  end.
  { unfold pts. rewrite splice_perm, splice_perm.
    apply (Permutation_app_tail (h :: hull') (l := [_; _]) (l' := [_; _])).
    etransitivity; [apply perm_swap |].
    etransitivity; [exact Hnotch | apply perm_swap]. }
  cbv beta in Hf.
  repeat match goal with
         | E : makeRandomPoint _ _ = Ok _ |- _ =>
             rewrite makeRandomPoint_value in E; injection E as <- <-
         end.
  repeat match goal with
         | E : newPoint _ _ _ = Ok _ |- _ =>
             unfold newPoint in E; injection E as <- <-
         end.
  cbn [oid x y nextOid samples randomIndex width height] in Hf.
  rewrite Hnext in Hf.
  apply andb_false_iff in Hf. destruct Hf as [Hf | Hf].
  - apply negb_false_iff, Nat.eqb_eq in Hf. lia.
  - unfold nearBy in Hf. cbn [x y] in Hf. rewrite Hhx, Hhy, !Hk, !Hs in Hf.
    vm_compute in Hf. discriminate Hf.
Qed.

(** Every pass on that sample sequence restarts. *)
Lemma makeRandomShape_quarter (fuel : nat) (w : World) :
  (forall k, samples w k = 1 # 4) ->
  makeRandomShape fuel (mkSize 800 600) w = OutOfFuel.
Proof.
  revert w. induction fuel as [| fuel IH]; intros w Hs; [reflexivity |].
  cbn [makeRandomShape]. unfold bind.
  destruct (shapeAttempt_returns (mkSize 800 600) w) as [attempt [w1 E]]. rewrite E.
  destruct attempt as [accepted |].
  - exfalso. exact (shapeAttempt_quarter_restarts w w1 accepted Hs E).
  - apply IH. intro k.
    rewrite (keepsSamples_shapeAttempt _ _ _ _ E). apply Hs.
Qed.

(** X15.  No pass of [makeRandomShape] fails on an undefined value: a pass
    either returns a shape or restarts, so [makeRandomShape] throws no
    [TypeError], whatever the view port and the samples, and a shape it
    returns has at least two points, since the two notch points are always
    inserted.  It need not return: when every sample is 1/4 and the view
    port is 800 by 600, every pass is rejected by the proximity check and no
    number of passes yields a shape.  That recursion without end -- in
    JavaScript a [RangeError] once the call stack is used up -- is how
    [makeRandomShape] fails. *)
Theorem makeRandomShape_fails_by_recursion_only (fuel : nat) (viewPort : Size)
    (w : World) :
  makeRandomShape fuel viewPort w <> TypeError /\
  (forall shape w', makeRandomShape fuel viewPort w = Ok (shape, w') ->
                    (2 <= length (points shape))%nat) /\
  makeRandomShape fuel (mkSize 800 600)
    (mkWorld (fun _ => 1 # 4) (randomIndex w) (nextOid w)) = OutOfFuel.
Proof.
  split; [| split; [| apply makeRandomShape_quarter; intro k; reflexivity]].
  - revert w. induction fuel as [| fuel IH]; intro w; [discriminate |].
    cbn [makeRandomShape]. unfold bind.
    destruct (shapeAttempt_returns viewPort w) as [attempt [w1 E]]. rewrite E.
    destruct attempt as [accepted |]; [discriminate | apply IH].
  - revert w. induction fuel as [| fuel IH]; intro w; [discriminate |].
    cbn [makeRandomShape]. unfold bind.
    destruct (shapeAttempt_returns viewPort w) as [attempt [w1 E]]. rewrite E.
    destruct attempt as [accepted |]; [| apply IH].
    intros shape w' H. injection H as <- _.
    exact (shapeAttempt_two_points _ _ _ _ E).
Qed.

Lemma makeRandomShape_nonempty (fuel : nat) (viewPort : Size) (w w' : World)
    (shape : Shape) :
  makeRandomShape fuel viewPort w = Ok (shape, w') -> points shape <> [].
Proof.
  revert w. induction fuel as [| fuel IH]; intros w H; [discriminate |].
  cbn [makeRandomShape] in H. unfold bind in H.
  destruct (shapeAttempt viewPort w) as [[[accepted |] w1] | |] eqn:E;
    try discriminate.
  - injection H as <- _. apply shapeAttempt_two_points in E.
    destruct (points accepted); [cbn in E; lia | discriminate].
  - exact (IH w1 H).
Qed.


Lemma pushTimes_bounds (viewPort : Size) (n : nat) :
  20 <= width viewPort -> 20 <= height viewPort ->
  forall w l w',
    (forall k, 0 <= samples w k < 1) ->
    pushTimes n (makeRandomPoint viewPort) w = Ok (l, w') ->
    samples w' = samples w /\
    forall p, In p l ->
      10 <= x p <= width viewPort - 10 /\ 10 <= y p <= height viewPort - 10.
Proof.
  intros Hw Hh. induction n as [| n IH]; intros w l w' Hs H; cbn [pushTimes] in H.
  - injection H as <- <-. split; [reflexivity | intros p []].
  - unfold bind, ret in H.
    destruct (makeRandomPoint viewPort w) as [[a w1] | |] eqn:Ea; try discriminate.
    destruct (pushTimes n (makeRandomPoint viewPort) w1) as [[rest w2] | |] eqn:Er;
      try discriminate.
    injection H as <- <-.
    pose proof (keepsSamples_makeRandomPoint viewPort w a w1 Ea) as E1.
    destruct (IH w1 rest w2) as [E2 Hrest]; [rewrite E1; exact Hs | exact Er |].
    split; [congruence |].
    intros p [<- | Hp]; [| now apply Hrest].
    exact (makeRandomPoint_bounds viewPort w w1 a (Hs _) (Hs _) Hw Hh Ea).
Qed.

Lemma shapeAttempt_within (viewPort : Size) (w w' : World) (shape : Shape) :
  (forall k, 0 <= samples w k < 1) ->
  80 <= width viewPort -> 80 <= height viewPort ->
  shapeAttempt viewPort w = Ok (Some shape, w') ->
  (length (points shape) <= 17)%nat /\
  forall p, In p (points shape) ->
    10 <= x p <= width viewPort - 10 /\ 10 <= y p <= height viewPort - 10.
Proof.
  intros Hs Hw Hh H. unfold shapeAttempt, bind, ret, throwTypeError in H.
  unfold Math_random at 1 in H. cbv beta iota in H.
  split_matches H; try discriminate H.
  subst.
  assert (Hw20 : 20 <= width viewPort) by lra.
  assert (Hh20 : 20 <= height viewPort) by lra.
  match goal with
  | E : pushTimes _ _ _ = Ok (?l, _) |- _ =>
      pose proof (pushTimes_oids _ _ _ _ _ E) as Hoids;
      pose proof (pushTimes_length _ _ _ _ _ E) as Hlen;
      apply (pushTimes_bounds viewPort _ Hw20 Hh20) in E; [| exact Hs];
      destruct E as [Es1 Hrandom]; rename l into randomPoints
  end.
  cbn [samples nextOid] in Es1, Hoids. destruct Hoids as [Hoids _].
  set (inner := mkSize (width viewPort / 4) (height viewPort / 4)) in *.
  assert (Eiw : width inner == width viewPort * (1 # 4)) by reflexivity.
  assert (Eih : height inner == height viewPort * (1 # 4)) by reflexivity.
  assert (Hiw : 20 <= width inner) by lra.
  assert (Hih : 20 <= height inner) by lra.
  match goal with
  | E0 : makeRandomPoint inner ?wa = Ok (?p0, ?wb),
    E1 : makeRandomPoint inner ?wb = Ok (?p1, ?wc) |- _ =>
      pose proof (keepsSamples_makeRandomPoint inner wa p0 wb E0) as Es2;
      assert (B0 : 10 <= x p0 <= width inner - 10 /\ 10 <= y p0 <= height inner - 10)
        by (apply (makeRandomPoint_bounds inner wa wb p0); try assumption;
            rewrite Es1; apply Hs);
      assert (B1 : 10 <= x p1 <= width inner - 10 /\ 10 <= y p1 <= height inner - 10)
        by (apply (makeRandomPoint_bounds inner wb wc p1); try assumption;
            rewrite Es2, Es1; apply Hs);
      clear E0 E1
  end.
  repeat match goal with
         | E : newPoint _ _ _ = Ok _ |- _ =>
             unfold newPoint in E; injection E as <- <-
         end.
  match goal with
  | E : arraySort pointComparator [?m0; ?m1] = [?top; ?bottom] |- _ =>
      pose proof (arraySort_perm pointComparator [m0; m1]) as Hnotch;
      rewrite E in Hnotch; clear E
  end.
  set (hull := makeHullPresorted (arraySort pointComparator randomPoints)) in *.
  injection H as <- _. cbn [points].
  assert (Hsorted_nd : NoDup (map oid (arraySort pointComparator randomPoints))).
  { apply (Permutation_NoDup
             (Permutation_map oid (Permutation_sym (arraySort_perm pointComparator randomPoints)))).
    rewrite Hoids. apply seq_NoDup. }
  destruct (makeHullPresorted_distinct _ (arraySort_abscissas randomPoints) Hsorted_nd)
    as [Hhull_nd Hhull_in]. fold hull in Hhull_nd, Hhull_in.
  split.
  - rewrite !splice_length.
    assert (length hull <= length (arraySort pointComparator randomPoints))%nat.
    { apply NoDup_incl_length; [exact (NoDup_of_map oid _ Hhull_nd) | exact Hhull_in]. }
    rewrite arraySort_length, Hlen in H.
    assert (Qfloor (samples w (randomIndex w) * 6) <= 5)%Z.
    { destruct (Hs (randomIndex w)) as [H0 H1].
      assert (Hlt : (Qfloor (samples w (randomIndex w) * 6) < 6)%Z).
      { rewrite Zlt_Qlt.
        apply Qle_lt_trans with (samples w (randomIndex w) * 6); [apply Qfloor_le |].
        change (inject_Z 6) with 6. lra. }
      lia. }
    lia.
  - intros v Hv.
    apply (Permutation_in _ (splice_perm _ _ _)) in Hv.
    match type of Hnotch with
    | Permutation [?top; ?bottom] _ =>
        assert (Hcases : In v [top; bottom] \/ In v hull)
    end.
    { destruct Hv as [<- | Hv]; [left; right; now left |].
      apply (Permutation_in _ (splice_perm _ _ _)) in Hv.
      destruct Hv as [<- | Hv]; [left; now left | now right]. }
    destruct Hcases as [Hn | Hh'].
    + apply (Permutation_in _ Hnotch) in Hn.
      destruct Hn as [<- | [<- | []]]; cbn [x y];
        change (width viewPort / 4) with (width inner);
        change (height viewPort / 4) with (height inner); lra.
    + apply Hrandom.
      apply (Permutation_in _ (arraySort_perm pointComparator randomPoints)).
      now apply Hhull_in.
Qed.

(** X16.  With samples in [0, 1) and a view port of at least 80 by 80, a
    shape returned by [makeRandomShape] has at most 17 points, and every one
    of them lies at least 10 inside the view port on every side. *)
Theorem makeRandomShape_within_view_port (fuel : nat) (viewPort : Size)
    (w w' : World) (shape : Shape) :
  (forall k, 0 <= samples w k < 1) ->
  80 <= width viewPort -> 80 <= height viewPort ->
  makeRandomShape fuel viewPort w = Ok (shape, w') ->
  (length (points shape) <= 17)%nat /\
  forall p, In p (points shape) ->
    10 <= x p <= width viewPort - 10 /\ 10 <= y p <= height viewPort - 10.
Proof.
  intros Hs Hw Hh. revert w Hs. induction fuel as [| fuel IH]; intros w Hs H;
    [discriminate |].
  cbn [makeRandomShape] in H. unfold bind in H.
  destruct (shapeAttempt viewPort w) as [[[accepted |] w1] | |] eqn:E;
    try discriminate.
  - injection H as <- _. exact (shapeAttempt_within viewPort w w1 accepted Hs Hw Hh E).
  - apply (IH w1); [| exact H].
    rewrite (keepsSamples_shapeAttempt viewPort w None w1 E). exact Hs.
Qed.

Lemma makeRandomShape_within_view_port_witness :
  exists shape w',
    makeRandomShape 1 (mkSize 800 600) demoWorld = Ok (shape, w') /\
    (length (points shape) <= 17)%nat /\
    forall p, In p (points shape) ->
      10 <= x p <= 800 - 10 /\ 10 <= y p <= 600 - 10.
Proof.
  assert (H : exists shape w',
             makeRandomShape 1 (mkSize 800 600) demoWorld = Ok (shape, w')).
  { eexists _, _. vm_compute. reflexivity. }
  destruct H as [shape [w' H]]. exists shape, w'.
  split; [exact H |].
  apply (makeRandomShape_within_view_port 1 (mkSize 800 600) demoWorld w' shape
           demoSamples_range); [cbn; lra | cbn; lra | exact H].
Defined.

(** ** Counting and scoring *)

Lemma pixelIndices_multiple (len i : nat) :
  In i (pixelIndices len) -> exists k, i = (4 * k)%nat.
Proof.
  unfold pixelIndices. intro H. apply in_map_iff in H.
  destruct H as [k [E _]]. exists k. now symmetry.
Qed.

Lemma channelIs_agree (data data' : list Z) (i : nat) (v : Z) :
  nth_error data i = nth_error data' i -> channelIs data i v = channelIs data' i v.
Proof. unfold channelIs. now intros ->. Qed.

Lemma pixelIndices_length (len : nat) :
  length (pixelIndices len) = ((len + 3) / 4)%nat.
Proof. unfold pixelIndices. now rewrite length_map, length_seq. Qed.

Lemma filter_length_le {A : Type} (f : A -> bool) (l : list A) :
  (length (filter f l) <= length l)%nat.
Proof.
  induction l as [| a l IH]; [apply Nat.le_refl |].
  cbn [filter]. destruct (f a); cbn [length]; lia.
Qed.

(** X17.  Both counting loops of [end_game] read the red channel of each
    pixel and nothing else: buffers of the same length that agree on every
    fourth entry give the same tallies.  No tally is negative, the count of
    overfilled pixels does not exceed the number of pixels read, and neither
    does the count of filled and underfilled pixels together. *)
Theorem counting_reads_red_channel (pixels pixels' drawData drawData' fillData fillData' : list Z) :
  (length pixels = length pixels' ->
   (forall k, nth_error pixels (4 * k) = nth_error pixels' (4 * k)) ->
   countOverfilled pixels = countOverfilled pixels') /\
  (length fillData = length fillData' ->
   (forall k, nth_error fillData (4 * k) = nth_error fillData' (4 * k)) ->
   (forall k, nth_error drawData (4 * k) = nth_error drawData' (4 * k)) ->
   countFilled drawData fillData = countFilled drawData' fillData') /\
  (0 <= countOverfilled pixels <= Z.of_nat ((length pixels + 3) / 4))%Z /\
  (0 <= fst (countFilled drawData fillData))%Z /\
  (0 <= snd (countFilled drawData fillData))%Z /\
  (fst (countFilled drawData fillData) + snd (countFilled drawData fillData)
   <= Z.of_nat ((length fillData + 3) / 4))%Z.
Proof.
  split; [| split; [| split; [| split; [| split]]]].
  - intros Hlen Hred. rewrite !countOverfilled_spec, <- Hlen. do 2 f_equal.
    apply filter_ext_in. intros i Hi.
    destruct (pixelIndices_multiple _ _ Hi) as [k ->]. now apply channelIs_agree.
  - intros Hlen Hfill Hdraw. rewrite !countFilled_spec.
    assert (Em : maskPixels fillData = maskPixels fillData').
    { unfold maskPixels. rewrite <- Hlen. apply filter_ext_in. intros i Hi.
      destruct (pixelIndices_multiple _ _ Hi) as [k ->]. now apply channelIs_agree. }
    rewrite <- Em.
    assert (Hm : forall i, In i (maskPixels fillData) -> exists k, i = (4 * k)%nat).
    { intros i Hi. unfold maskPixels in Hi. apply filter_In in Hi.
      exact (pixelIndices_multiple _ _ (proj1 Hi)). }
    f_equal; do 2 f_equal; apply filter_ext_in; intros i Hi;
      destruct (Hm i Hi) as [k ->]; [| f_equal]; now apply channelIs_agree.
  - rewrite countOverfilled_spec.
    pose proof (filter_length_le (fun i => channelIs pixels i gray)
                                 (pixelIndices (length pixels))) as H.
    rewrite pixelIndices_length in H. lia.
  - apply countFilled_nonneg.
  - apply countFilled_nonneg.
  - rewrite countFilled_spec. cbn [fst snd].
    pose proof (filter_split_length (fun i => channelIs drawData i gray)
                                    (maskPixels fillData)) as H.
    pose proof (filter_length_le (fun i => channelIs fillData i 255)
                                 (pixelIndices (length fillData))) as H'.
    rewrite pixelIndices_length in H'. fold (maskPixels fillData) in H'. lia.
Qed.

Lemma Qdiv_eq_iff (a b c : Q) : ~ c == 0 -> (a / c == b <-> a == b * c).
Proof.
  intro Hc. split; intro H.
  - rewrite <- H. field. exact Hc.
  - rewrite H. field. exact Hc.
Qed.

Lemma scoreOf_fin (f o u : Z) (q : Q) :
  scoreOf f o u = Fin q ->
  (f + u <> 0)%Z /\ q = inject_Z (100 * f - o) / inject_Z (f + u).
Proof.
  intro H. destruct (Z.eq_dec (f + u) 0) as [E | E].
  - rewrite (scoreOf_zero f o u E) in H.
    destruct (100 * f - o =? 0)%Z; [discriminate |].
    destruct (0 <? 100 * f - o)%Z; discriminate.
  - split; [exact E |]. rewrite (scoreOf_finite f o u E) in H. congruence.
Qed.

(** The score of non-negative tallies, when it is a number. *)
Lemma score_at_most_100 (f o u : Z) (q : Q) :
  (0 <= f)%Z -> (0 <= o)%Z -> (0 <= u)%Z ->
  scoreOf f o u = Fin q ->
  q <= 100 /\ (q == 100 <-> o = 0%Z /\ u = 0%Z) /\ (q < 0 <-> (100 * f < o)%Z).
Proof.
  intros Hf Ho Hu H. destruct (scoreOf_fin f o u q H) as [Hne ->].
  assert (Hpos : 0 < inject_Z (f + u)).
  { change 0 with (inject_Z 0). rewrite <- Zlt_Qlt. lia. }
  assert (Hnz : ~ inject_Z (f + u) == 0) by lra.
  split; [| split].
  - apply Qle_shift_div_r; [exact Hpos |].
    change 100 with (inject_Z 100). rewrite <- inject_Z_mult, <- Zle_Qle. lia.
  - rewrite (Qdiv_eq_iff _ _ _ Hnz).
    change 100 with (inject_Z 100). rewrite <- inject_Z_mult, inject_Z_injective. lia.
  - split; intro H0.
    + assert (inject_Z (100 * f - o) < 0).
      { destruct (Qlt_le_dec (inject_Z (100 * f - o)) 0) as [L | L]; [exact L |].
        exfalso. apply (Qlt_not_le _ _ H0). apply Qle_shift_div_l; [exact Hpos | lra]. }
      change 0 with (inject_Z 0) in H1. rewrite <- Zlt_Qlt in H1. lia.
    + apply Qlt_shift_div_r; [exact Hpos |].
      setoid_replace (0 * inject_Z (f + u)) with (inject_Z 0) by ring.
      rewrite <- Zlt_Qlt. lia.
Qed.

(** ** The state machine: transitions and what they leave alone *)

(** X18.  Only [start_game] and [end_game] change the page, to [game] and
    to [game_over]; so the page never returns to [home].  Only
    [open_score_explainer] and [dismiss_score_explainer] change the explainer
    flag: the first sets it exactly when the page is [game_over], and so
    clears it on any other page; the second clears it. *)
Theorem page_transitions (env : Env) (msg : Msg) (model model' : Model)
    (effect : option Effect) (w w' : World) :
  update env msg model w = Ok ((model', effect), w') ->
  page model' = match msg with
                | start_game => game
                | end_game => game_over
                | _ => page model
                end /\
  scoreExplainerOpen model' = match msg with
                              | open_score_explainer => isGameOver (page model)
                              | dismiss_score_explainer => false
                              | _ => scoreExplainerOpen model
                              end /\
  (page model' = home -> page model = home).
Proof.
  intro H.
  assert (H12 : page model' = match msg with
                              | start_game => game
                              | end_game => game_over
                              | _ => page model
                              end /\
                scoreExplainerOpen model' = match msg with
                              | open_score_explainer => isGameOver (page model)
                              | dismiss_score_explainer => false
                              | _ => scoreExplainerOpen model
                              end).
  { destruct msg; invert_update H; cbn; split; reflexivity. }
  destruct H12 as [H1 H2]. split; [exact H1 |]. split; [exact H2 |].
  intro Hh. rewrite Hh in H1. destruct msg; try discriminate H1; now symmetry.
Qed.

Lemma page_transitions_witness :
  page finished = game_over /\ scoreExplainerOpen finished = scoreExplainerOpen playing.
Proof.
  assert (H : update demoEnv end_game playing playingWorld
              = Ok ((finished, None), playingWorld)) by (vm_compute; reflexivity).
  destruct (page_transitions demoEnv end_game playing finished None
              playingWorld playingWorld H) as [H1 [H2 _]].
  split; [exact H1 | exact H2].
Defined.



(** ** The state machine: what holds of every reachable model *)

Lemma drawShapeToCanvas_some (size : Size) (shape : Shape) (color : Color)
    (fill clear : bool) (ops : list CanvasOp) :
  drawShapeToCanvas size shape color fill clear = Some ops -> points shape <> [].
Proof. unfold drawShapeToCanvas. destruct (points shape); [discriminate | discriminate]. Qed.

Lemma drawShapeToCanvas_none (size : Size) (shape : Shape) (color : Color)
    (fill clear : bool) :
  drawShapeToCanvas size shape color fill clear = None <-> points shape = [].
Proof.
  unfold drawShapeToCanvas.
  destruct (points shape); split; intro H; try reflexivity; discriminate.
Qed.

Ltac close_invariant :=
  unfold sessionInvariant; cbn;
  repeat split; try assumption; try reflexivity; try discriminate; try tauto;
  try (repeat match goal with
              | E : _ = Some _ |- _ => rewrite E
              | E : _ = None |- _ => rewrite E
              end; assumption).

Lemma update_sessionInvariant (env : Env) (msg : Msg) (model model' : Model)
    (effect : option Effect) (w w' : World) :
  update env msg model w = Ok ((model', effect), w') ->
  sessionInvariant model -> sessionInvariant model'.
Proof.
  intros H [Iurl [Ihome [Ishape [[It1 [It2 It3]] [Ifg [Ibg Ioff]]]]]].
  destruct msg.
  - (* start_game *)
    unfold update, bind, ret in H.
    destruct (makeRandomShape _ _ w) as [[s w1] | |] eqn:E; try discriminate.
    injection H as <- _ _.
    apply makeRandomShape_nonempty in E. close_invariant.
  - (* end_game *)
    pose proof (countFilled_nonneg (drawData env) (fillData env)) as [Hc1 Hc2].
    pose proof (countOverfilled_nonneg (overlaidPixels env)) as Hc3.
    unfold update, ret, throwTypeError in H.
    set (f := fst (countFilled (drawData env) (fillData env))) in *.
    set (u := snd (countFilled (drawData env) (fillData env))) in *.
    set (o := countOverfilled (overlaidPixels env)) in *.
    clearbody f u o.
    split_matches H; try discriminate H.
    match goal with
    | E : drawShapeToCanvas _ _ _ _ _ = Some _ |- _ =>
        apply drawShapeToCanvas_some in E; rename E into Hne
    end.
    injection H as <- _ _. close_invariant.
  - (* canvas_mounted *)
    invert_update H; close_invariant.
  - (* canvas_render *)
    invert_update H. close_invariant.
  - (* canvas_draw *)
    invert_update H; close_invariant.
  - (* canvas_draw_end *)
    invert_update H; close_invariant.
  - (* window_resize *)
    unfold update, bind, ret in H.
    destruct (isGame (page model)) eqn:Eg.
    + injection H as <- _ _. close_invariant.
    + destruct (points (shape model)) as [| p0 rest] eqn:Ep.
      * destruct (makeRandomShape _ _ w) as [[s w1] | |] eqn:E; try discriminate.
        injection H as <- _ _.
        apply makeRandomShape_nonempty in E. close_invariant.
      * injection H as <- _ _. close_invariant.
        intros _. rewrite Ep. discriminate.
  - (* home_carousel_tick *)
    unfold update, bind, ret in H.
    destruct (makeRandomColor w) as [[c w1] | |] eqn:Ec; try discriminate.
    destruct (makeRandomShape _ _ w1) as [[s w2] | |] eqn:E; try discriminate.
    apply makeRandomShape_nonempty in E.
    destruct (foregroundCtx model) eqn:Ef; injection H as <- _ _; close_invariant.
  - (* game_tick *)
    invert_update H. close_invariant.
  - (* open_score_explainer *)
    invert_update H; close_invariant.
  - (* dismiss_score_explainer *)
    invert_update H; close_invariant.
Qed.

Lemma reachable_sessionInvariant (model : Model) :
  reachable model -> sessionInvariant model.
Proof.
  induction 1 as [| env msg model model' effect w w' _ IH H].
  - unfold sessionInvariant. cbn.
    repeat split; try reflexivity; try discriminate; try lia;
      try (intro Hc; contradiction).
  - exact (update_sessionInvariant _ _ _ _ _ _ _ H IH).
Qed.

Lemma playing_reachable : reachable playing.
Proof.
  apply (runMessages_reachable demoEnv playingScript init demoWorld playing playingWorld).
  - exact reachable_init.
  - vm_compute. reflexivity.
Qed.

Lemma finished_reachable : reachable finished.
Proof.
  apply (reachable_step demoEnv end_game playing finished None playingWorld playingWorld).
  - exact playing_reachable.
  - vm_compute. reflexivity.
Qed.

(** X20.  In every reachable model the final image is present exactly on
    the game-over page; and while the page is still [home] no round has left
    a trace: the tallies, the game length and the start time are 0. *)
Theorem final_image_only_on_game_over (model : Model) :
  reachable model ->
  (finalUrl model <> None <-> page model = game_over) /\
  (page model = home ->
   pixelsFilled model = 0%Z /\ pixelsOverfilled model = 0%Z /\
   pixelsUnderFilled model = 0%Z /\ gameLength model = 0%Z /\ gameStart model = 0%Z).
Proof.
  intro H. destruct (reachable_sessionInvariant model H) as [H1 [H2 _]].
  split; assumption.
Qed.

Lemma final_image_only_on_game_over_witness :
  finalUrl finished <> None /\ finalUrl playing = None.
Proof.
  destruct (final_image_only_on_game_over finished finished_reachable) as [[_ H1] _].
  destruct (final_image_only_on_game_over playing playing_reachable) as [[H2 _] _].
  split; [apply H1; reflexivity |].
  destruct (finalUrl playing) eqn:E; [| reflexivity].
  exfalso. assert (Hp : page playing = game_over) by (apply H2; discriminate).
  discriminate Hp.
Defined.

(** X21.  In every reachable model each drawing context is the one its
    canvas element answered when it was mounted, so a context is never
    present without its element, and the offscreen canvas is the one created
    at start-up.  Hence [canvas_draw], which reads the background element,
    does not throw once the background context is there. *)
Theorem contexts_follow_elements (model : Model) :
  reachable model ->
  foregroundCtx model = match foregroundCanvasElement model with
                        | Some el => getContext2d el
                        | None => None
                        end /\
  backgroundCtx model = match backgroundCanvasElement model with
                        | Some el => getContext2d el
                        | None => None
                        end /\
  offscreenCanvasElement model = offscreenCanvasElement init /\
  (forall env wx wy w ctx,
      backgroundCtx model = Some ctx ->
      exists model' effect w',
        update env (canvas_draw wx wy) model w = Ok ((model', effect), w')).
Proof.
  intro H.
  destruct (reachable_sessionInvariant model H) as [_ [_ [_ [_ [Hfg [Hbg Hoff]]]]]].
  split; [exact Hfg |]. split; [exact Hbg |]. split; [exact Hoff |].
  intros env wx wy w ctx Hctx. unfold update, bind, newPoint, ret.
  destruct (backgroundCanvasElement model) as [el |]; [| congruence].
  destruct (length (drawPointBuffer model) <? 5)%nat.
  - eexists _, _, _. reflexivity.
  - rewrite Hctx. eexists _, _, _. reflexivity.
Qed.

Lemma contexts_follow_elements_witness :
  backgroundCtx playing = Some 1%nat /\
  exists model' effect w',
    update demoEnv (canvas_draw 150 135) playing playingWorld
    = Ok ((model', effect), w').
Proof.
  destruct (contexts_follow_elements playing playing_reachable) as [_ [_ [_ H]]].
  split; [reflexivity |].
  exact (H demoEnv 150 135 playingWorld 1%nat eq_refl).
Defined.

Lemma update_keeps_shape_present (env : Env) (msg : Msg) (model model' : Model)
    (effect : option Effect) (w w' : World) :
  update env msg model w = Ok ((model', effect), w') ->
  points (shape model) <> [] -> points (shape model') <> [].
Proof.
  intros H Hne. destruct msg.
  - unfold update, bind, ret in H.
    destruct (makeRandomShape _ _ w) as [[s w1] | |] eqn:E; try discriminate.
    injection H as <- _ _. exact (makeRandomShape_nonempty _ _ _ _ _ E).
  - invert_update H; exact Hne.
  - invert_update H; exact Hne.
  - invert_update H; exact Hne.
  - invert_update H; exact Hne.
  - invert_update H; exact Hne.
  - unfold update, bind, ret in H.
    destruct (isGame (page model)); [injection H as <- _ _; exact Hne |].
    destruct (points (shape model)) as [| p0 rest] eqn:Ep; [contradiction |].
    injection H as <- _ _. cbn. rewrite Ep. discriminate.
  - unfold update, bind, ret in H.
    destruct (makeRandomColor w) as [[c w1] | |] eqn:Ec; try discriminate.
    destruct (makeRandomShape _ _ w1) as [[s w2] | |] eqn:E; try discriminate.
    apply makeRandomShape_nonempty in E.
    destruct (foregroundCtx model); injection H as <- _ _; exact E.
  - invert_update H; exact Hne.
  - invert_update H; exact Hne.
  - invert_update H; exact Hne.
Qed.

(** X22.  Once there is a shape, there always is one: no message leaves the
    model with an empty shape when it had a non-empty one.  And off the home
    page every reachable model has a shape, so that drawing it does not
    throw. *)
Theorem shape_present_off_home :
  (forall env msg model model' effect w w',
      update env msg model w = Ok ((model', effect), w') ->
      points (shape model) <> [] -> points (shape model') <> []) /\
  (forall model,
      reachable model -> page model <> home ->
      points (shape model) <> [] /\
      forall size color fill clear,
        drawShapeToCanvas size (shape model) color fill clear <> None).
Proof.
  split; [exact update_keeps_shape_present |].
  intros model H Hp.
  destruct (reachable_sessionInvariant model H) as [_ [_ [Hs _]]].
  split; [exact (Hs Hp) |].
  intros size color fill clear E. apply drawShapeToCanvas_none in E.
  exact (Hs Hp E).
Qed.

(** X23.  The score that [view] shows for a reachable model is never above
    100 when it is a number; it is 100 exactly when no pixel was overfilled
    and none underfilled; and it is negative exactly when the overfilled
    pixels outnumber a hundredfold the filled ones. *)
Theorem score_never_above_100 (model : Model) (q : Q) :
  reachable model ->
  viewScore model = Fin q ->
  q <= 100 /\
  (q == 100 <-> pixelsOverfilled model = 0%Z /\ pixelsUnderFilled model = 0%Z) /\
  (q < 0 <-> (100 * pixelsFilled model < pixelsOverfilled model)%Z).
Proof.
  intros H Hq.
  destruct (reachable_sessionInvariant model H) as [_ [_ [_ [[Hf [Ho Hu]] _]]]].
  exact (score_at_most_100 _ _ _ q Hf Ho Hu Hq).
Qed.

Lemma score_never_above_100_witness :
  viewScore finished = Fin (199 # 2) /\ (199 # 2) <= 100.
Proof.
  assert (H : viewScore finished = Fin (199 # 2)) by reflexivity.
  split; [exact H |].
  exact (proj1 (score_never_above_100 finished (199 # 2) finished_reachable H)).
Defined.

(** X24.  [end_game] does not return when one of the objects it
    dereferences is missing: the background canvas element, the offscreen
    context, the first point of the shape, the background context or the
    foreground canvas element.  When it returns, all five are there, and it
    returns the game-over model with the elapsed game length, no effect and
    the world as it was.  In a reachable model off the home page the shape
    has a first point, the offscreen context exists and the background
    element is there whenever the background context is: of the five, only
    the background context and the foreground element can be missing.
    (Whether the canvas calls themselves answer, which they do not on a
    canvas without area, is not decided here.) *)
Theorem end_game_needs_its_objects (env : Env) (model : Model) (w : World) :
  (backgroundCanvasElement model = None \/
   getContext2d (offscreenCanvasElement model) = None \/
   points (shape model) = [] \/
   backgroundCtx model = None \/
   foregroundCanvasElement model = None ->
   forall result, update env end_game model w <> Ok result) /\
  (forall model' effect w',
     update env end_game model w = Ok ((model', effect), w') ->
     backgroundCanvasElement model <> None /\
     getContext2d (offscreenCanvasElement model) <> None /\
     points (shape model) <> [] /\
     backgroundCtx model <> None /\
     foregroundCanvasElement model <> None /\
     effect = None /\ w' = w /\
     page model' = game_over /\
     gameLength model' = (now env - gameStart model)%Z) /\
  (reachable model -> page model <> home ->
   points (shape model) <> [] /\
   getContext2d (offscreenCanvasElement model) <> None /\
   (backgroundCtx model <> None -> backgroundCanvasElement model <> None)).
Proof.
  assert (Hok : forall model' effect w',
             update env end_game model w = Ok ((model', effect), w') ->
             backgroundCanvasElement model <> None /\
             getContext2d (offscreenCanvasElement model) <> None /\
             points (shape model) <> [] /\
             backgroundCtx model <> None /\
             foregroundCanvasElement model <> None /\
             effect = None /\ w' = w /\
             page model' = game_over /\
             gameLength model' = (now env - gameStart model)%Z).
  { intros model' effect w' H.
    unfold update, ret, throwTypeError in H.
    destruct (backgroundCanvasElement model); [| discriminate H].
    destruct (getContext2d (offscreenCanvasElement model)); [| discriminate H].
    destruct (drawShapeToCanvas (canvasViewSize model) (shape model)
                (ColorHex "#000") true false) eqn:E1; [| discriminate H].
    destruct (drawShapeToCanvas (canvasViewSize model) (shape model)
                (ColorHex "#fff") true false) eqn:E2; [| discriminate H].
    destruct (backgroundCtx model); [| discriminate H].
    destruct (foregroundCanvasElement model); [| discriminate H].
    pose proof (drawShapeToCanvas_some _ _ _ _ _ _ E1) as Hs.
    injection H as <- <- <-.
    repeat (split; [first [discriminate | exact Hs | reflexivity] |]).
    reflexivity. }
  split; [| split; [exact Hok |]].
  - intros Hmiss [[model' effect] w'] E.
    destruct (Hok _ _ _ E) as [H1 [H2 [H3 [H4 [H5 _]]]]].
    destruct Hmiss as [H | [H | [H | [H | H]]]]; contradiction.
  - intros Hr Hp.
    destruct (reachable_sessionInvariant model Hr) as [_ [_ [Hs [_ [_ [Hsync Hoff]]]]]].
    split; [exact (Hs Hp) |]. split.
    + rewrite Hoff. discriminate.
    + intros Hbg E. rewrite E in Hsync. contradiction.
Qed.

(** ** The state machine: effects, layout and rounds *)

(** X25.  The closure that [update] returns throws in two situations only:
    after [start_game] when the foreground canvas gave no context, and after
    [home_carousel_tick] when the model held no shape before the tick.  The
    closures of [canvas_draw] and [canvas_draw_end] never throw. *)
Theorem effect_throws_iff (env : Env) (msg : Msg) (model model' : Model)
    (eff : Effect) (w w' : World) :
  update env msg model w = Ok ((model', Some eff), w') ->
  (runEffect eff = None <->
   (msg = start_game /\ foregroundCtx model = None) \/
   (msg = home_carousel_tick /\ points (shape model) = [])).
Proof.
  intro H. destruct msg.
  all: try (invert_update H; fail).
  - (* start_game *)
    unfold update, bind, ret in H.
    destruct (makeRandomShape _ _ w) as [[s w1] | |] eqn:E; try discriminate.
    apply makeRandomShape_nonempty in E.
    injection H as <- <- _. cbn [runEffect]. cbn.
    destruct (foregroundCtx model) as [fg |].
    + unfold drawShapeToCanvas. cbn [points].
      destruct (points s) as [| start rest]; [contradiction |].
      split; [discriminate |].
      intros [[_ Hc] | [Hc _]]; discriminate.
    + split; [intros _; left; split; reflexivity | reflexivity].
  - (* canvas_draw *)
    apply canvas_draw_effect in H. destruct H as [ctx [newPt [-> _]]].
    cbn [runEffect].
    destruct (drawPoints_nonempty (2 * getLineWidthForCanvasSize (canvasViewSize model))
                (drawPointBuffer model ++ [newPt])) as [ops Hops].
    { intro E. apply app_eq_nil in E. destruct E; discriminate. }
    rewrite Hops. split; [discriminate |].
    intros [[Hc _] | [Hc _]]; discriminate.
  - (* canvas_draw_end *)
    apply canvas_draw_end_effect in H. destruct H as [ctx [-> Hne]].
    cbn [runEffect].
    destruct (drawPoints_nonempty (2 * getLineWidthForCanvasSize (canvasViewSize model))
                (drawPointBuffer model) Hne) as [ops Hops].
    rewrite Hops. split; [discriminate |].
    intros [[Hc _] | [Hc _]]; discriminate.
  - (* home_carousel_tick *)
    unfold update, bind, ret in H.
    destruct (makeRandomColor w) as [[c w1] | |] eqn:Ec; try discriminate.
    destruct (makeRandomShape _ _ w1) as [[s w2] | |] eqn:E; try discriminate.
    destruct (foregroundCtx model) as [ctx |]; [| discriminate].
    injection H as _ <- _. cbn [runEffect]. unfold onContext.
    pose proof (drawShapeToCanvas_none (canvasViewSize model) (shape model)
                  (homeColor model) false true) as N.
    destruct (drawShapeToCanvas (canvasViewSize model) (shape model)
                (homeColor model) false true) as [ops |]; cbn [option_map].
    + split; [discriminate |].
      intros [[Hc _] | [_ Hc]]; [discriminate |].
      apply N in Hc. discriminate.
    + split; [| reflexivity]. intros _. right. split; [reflexivity | now apply N].
Qed.

Lemma effect_throws_iff_witness :
  exists eff w',
    update demoEnv canvas_draw_end playing playingWorld
    = Ok ((with_drawPointBuffer [] playing, Some eff), w') /\
    runEffect eff <> None.
Proof.
  assert (H : exists eff w',
             update demoEnv canvas_draw_end playing playingWorld
             = Ok ((with_drawPointBuffer [] playing, Some eff), w')).
  { eexists _, _. reflexivity. }
  destruct H as [eff [w' H]]. exists eff, w'. split; [exact H |].
  intro E.
  apply (effect_throws_iff demoEnv canvas_draw_end playing _ eff playingWorld w' H) in E.
  destruct E as [[Hc _] | [Hc _]]; discriminate.
Defined.

Lemma floor_two_thirds (a : Q) : Math_floor (a / (3 # 2)) * (3 # 2) <= a.
Proof.
  unfold Math_floor.
  pose proof (Qfloor_le (a / (3 # 2))) as H.
  assert (E : a / (3 # 2) == a * (2 # 3)) by reflexivity.
  revert H E. generalize (a / (3 # 2)). intros t H E.
  assert (inject_Z (Qfloor t) <= a * (2 # 3)) by (rewrite <- E; exact H).
  lra.
Qed.

(** X26.  Off the [game] page [window_resize] records the window size and
    lays the canvas out inside the frame: the frame is the window less 20 on
    every side and 70 more at the bottom; a window wider than tall gets a
    canvas of the frame's width whose height is at most two thirds of it, any
    other window a canvas of the frame's height whose width is at most two
    thirds of it.  The view size is the canvas size times the device pixel
    ratio, and the shape's area is the view less 60 in height.  A shape that
    exists is kept and no sample is drawn; only an empty shape is replaced. *)
Theorem window_resize_layout (env : Env) (w h : Q) (model model' : Model)
    (effect : option Effect) (world world' : World) :
  page model <> game ->
  update env (window_resize w h) model world = Ok ((model', effect), world') ->
  effect = None /\
  windowSize model' = mkSize w h /\
  width (canvasSize model') <= w - 40 /\
  height (canvasSize model') <= h - 110 /\
  (h < w ->
   width (canvasSize model') == w - 40 /\
   height (canvasSize model') * (3 # 2) <= width (canvasSize model')) /\
  (w <= h ->
   height (canvasSize model') == h - 110 /\
   width (canvasSize model') * (3 # 2) <= height (canvasSize model')) /\
  canvasViewSize model'
  = mkSize (width (canvasSize model') * devicePixelRatio env)
           (height (canvasSize model') * devicePixelRatio env) /\
  shapeDrawAreaSize model'
  = mkSize (width (canvasViewSize model')) (height (canvasViewSize model') - 60) /\
  (points (shape model) <> [] -> shape model' = shape model /\ world' = world) /\
  (points (shape model) = [] ->
   makeRandomShape (attempts env) (shapeDrawAreaSize model') world
   = Ok (shape model', world')).
Proof.
  intros Hp H. unfold update in H.
  assert (Eg : isGame (page model) = false) by (destruct (page model); try reflexivity; contradiction).
  rewrite Eg in H. cbv zeta in H.
  set (frameWidth := w - 20 * 2) in *.
  set (frameHeight := h - 20 * 2 - 70) in *.
  set (canvasSize' := if Qltb h w
                      then mkSize frameWidth
                                  (Qmin frameHeight (Math_floor (frameWidth / (3 # 2))))
                      else mkSize (Qmin frameWidth (Math_floor (frameHeight / (3 # 2))))
                                  frameHeight) in *.
  assert (Hcs : width canvasSize' <= w - 40 /\ height canvasSize' <= h - 110 /\
                (h < w -> width canvasSize' == w - 40 /\
                          height canvasSize' * (3 # 2) <= width canvasSize') /\
                (w <= h -> height canvasSize' == h - 110 /\
                           width canvasSize' * (3 # 2) <= height canvasSize')).
  { pose proof (floor_two_thirds frameWidth) as F1.
    pose proof (floor_two_thirds frameHeight) as F2.
    pose proof (Q.le_min_l frameHeight (Math_floor (frameWidth / (3 # 2)))) as A1.
    pose proof (Q.le_min_r frameHeight (Math_floor (frameWidth / (3 # 2)))) as A2.
    pose proof (Q.le_min_l frameWidth (Math_floor (frameHeight / (3 # 2)))) as B1.
    pose proof (Q.le_min_r frameWidth (Math_floor (frameHeight / (3 # 2)))) as B2.
    unfold canvasSize'.
    destruct (Qltb h w) eqn:E; [apply Qltb_lt in E | apply Qltb_ge in E];
      cbn [width height]; unfold frameWidth, frameHeight in *;
      repeat split; intros; lra. }
  clearbody canvasSize'.
  unfold bind, ret in H.
  destruct (points (shape model)) as [| p0 rest] eqn:Ep.
  - destruct (makeRandomShape _ _ world) as [[s w1] | |] eqn:E; try discriminate.
    injection H as <- <- <-. cbn.
    destruct Hcs as [C1 [C2 [C3 C4]]].
    repeat split; try assumption; try reflexivity; try (now apply C3);
      try (now apply C4); try congruence; try (intros _; exact E).
  - injection H as <- <- <-. cbn.
    destruct Hcs as [C1 [C2 [C3 C4]]].
    repeat split; try assumption; try reflexivity; try (now apply C3);
      try (now apply C4); try congruence.
Qed.

Lemma window_resize_layout_witness :
  exists model' world',
    update demoEnv (window_resize 1240 910) init demoWorld
    = Ok ((model', None), world') /\
    windowSize model' = mkSize 1240 910 /\
    width (canvasSize model') <= 1240 - 40 /\
    height (canvasSize model') <= 910 - 110.
Proof.
  assert (H : exists model' world',
             update demoEnv (window_resize 1240 910) init demoWorld
             = Ok ((model', None), world')).
  { eexists _, _. vm_compute. reflexivity. }
  destruct H as [model' [world' H]]. exists model', world'.
  split; [exact H |].
  assert (Hp : page init <> game) by discriminate.
  destruct (window_resize_layout demoEnv 1240 910 init model' None demoWorld world'
              Hp H) as [_ [H1 [H2 [H3 _]]]].
  repeat split; assumption.
Defined.





(** ** The view *)

Lemma opacity_ratio (k : Z) :
  inject_Z k / inject_Z bufferTime == inject_Z k * (1 # 2000).
Proof. reflexivity. Qed.

Lemma viewOpacity_game (clock : Z) (model : Model) :
  page model = game ->
  viewOpacity clock model
  = Qmax 0 (inject_Z (bufferTime - (clock - gameStart model))
            / inject_Z bufferTime).
Proof. intro H. unfold viewOpacity. rewrite H. reflexivity. Qed.

(** X29.  The opacity [view] gives the frame is 1 off the [game] page.  On
    the [game] page it is never negative, it is 1 at the moment the round
    starts, it does not grow as the clock advances, and it is 0 exactly from
    [bufferTime], 2000 milliseconds, after the start on.  So right after
    [start_game] the outline is fully visible and 2 seconds later it is
    gone for the rest of the round. *)
Theorem viewOpacity_fades (clock : Z) (model : Model) :
  0 <= viewOpacity clock model /\
  (page model <> game -> viewOpacity clock model = 1) /\
  (page model = game ->
   ((gameStart model <= clock)%Z -> viewOpacity clock model <= 1) /\
   (viewOpacity clock model == 1 <-> clock = gameStart model) /\
   (viewOpacity clock model == 0 <-> (gameStart model + bufferTime <= clock)%Z) /\
   (forall later, (clock <= later)%Z ->
                  viewOpacity later model <= viewOpacity clock model)) /\
  (forall env w model' effect w',
      update env start_game model w = Ok ((model', effect), w') ->
      viewOpacity (now env) model' == 1 /\
      forall elapsed, (bufferTime <= elapsed)%Z ->
                      viewOpacity (now env + elapsed) model' == 0).
Proof.
  assert (Hgame : forall c m, page m = game ->
            ((gameStart m <= c)%Z -> viewOpacity c m <= 1) /\
            (viewOpacity c m == 1 <-> c = gameStart m) /\
            (viewOpacity c m == 0 <-> (gameStart m + bufferTime <= c)%Z) /\
            (forall later, (c <= later)%Z -> viewOpacity later m <= viewOpacity c m)).
  { intros c m Hp.
    assert (Hcases : forall t, exists k,
              k = (bufferTime - (t - gameStart m))%Z /\
              ((k <= 0)%Z /\ viewOpacity t m == 0 \/
               (0 < k)%Z /\ viewOpacity t m == inject_Z k * (1 # 2000))).
    { intro t. exists (bufferTime - (t - gameStart m))%Z. split; [reflexivity |].
      rewrite (viewOpacity_game t m Hp).
      set (k := (bufferTime - (t - gameStart m))%Z).
      destruct (Z_le_gt_dec k 0) as [Hk | Hk]; [left | right]; (split; [lia |]).
      - apply Q.max_l. rewrite opacity_ratio.
        assert (inject_Z k <= 0) by (change 0 with (inject_Z 0); rewrite <- Zle_Qle; lia).
        lra.
      - rewrite Q.max_r; [apply opacity_ratio |]. rewrite opacity_ratio.
        assert (0 < inject_Z k) by (change 0 with (inject_Z 0); rewrite <- Zlt_Qlt; lia).
        lra. }
    assert (Hpos : forall k : Z, (0 < k)%Z -> 0 < inject_Z k).
    { intros k Hk. change 0 with (inject_Z 0). rewrite <- Zlt_Qlt. exact Hk. }
    assert (Hto : forall k n : Z, inject_Z k == inject_Z n * 1 -> k = n).
    { intros k n H. apply inject_Z_injective. lra. }
    unfold bufferTime in *.
    split; [| split; [| split]].
    - intro Hc. destruct (Hcases c) as [k [Ek [[Hk E] | [Hk E]]]]; rewrite E; [lra |].
      assert (H : inject_Z k <= inject_Z 2000) by (rewrite <- Zle_Qle; lia).
      change (inject_Z 2000) with 2000 in H. lra.
    - destruct (Hcases c) as [k [Ek [[Hk E] | [Hk E]]]]; rewrite E.
      + split; [intro H; exfalso; lra | intro H; exfalso; lia].
      + split; intro H.
        * assert (H1 : k = 2000%Z).
          { apply Hto. change (inject_Z 2000) with 2000. lra. }
          lia.
        * assert (H1 : k = 2000%Z) by lia. rewrite H1. reflexivity.
    - destruct (Hcases c) as [k [Ek [[Hk E] | [Hk E]]]]; rewrite E.
      + split; [intro H; lia | intro H; reflexivity].
      + split; intro H; [| exfalso; lia].
        pose proof (Hpos k Hk). exfalso. lra.
    - intros later Hl.
      destruct (Hcases c) as [k [Ek [[Hk E] | [Hk E]]]];
        destruct (Hcases later) as [k' [Ek' [[Hk' E'] | [Hk' E']]]]; rewrite E, E'.
      + lra.
      + exfalso; lia.
      + pose proof (Hpos k Hk). lra.
      + assert (inject_Z k' <= inject_Z k) by (rewrite <- Zle_Qle; lia).
        lra. }
  split; [| split; [| split]].
  - unfold viewOpacity. destruct (isGame (page model)); [apply Q.le_max_l | lra].
  - intro Hp. unfold viewOpacity.
    destruct (page model); try reflexivity. contradiction.
  - intro Hp. exact (Hgame clock model Hp).
  - intros env w model' effect w' H.
    assert (Hm : page model' = game /\ gameStart model' = now env).
    { unfold update, bind, ret in H.
      destruct (makeRandomShape _ _ w) as [[s w1] | |]; try discriminate.
      injection H as <- _ _. split; reflexivity. }
    destruct Hm as [Hp Hg].
    destruct (Hgame (now env) model' Hp) as [_ [H1 _]].
    split; [apply H1; now symmetry |].
    intros elapsed He.
    destruct (Hgame (now env + elapsed)%Z model' Hp) as [_ [_ [H0 _]]].
    apply H0. lia.
Qed.

(** X30.  The navigation button of [view] sends [start_game] on the home
    and the game-over page and [end_game] on the game page.  When the message
    it sends is handled without an exception, the page moves on from [home]
    to [game], from [game] to [game_over] and from [game_over] to [game], and
    the button then sends the other of the two messages. *)
Theorem nav_button_cycle (env : Env) (model model' : Model)
    (effect : option Effect) (w w' : World) :
  update env (viewAction model) model w = Ok ((model', effect), w') ->
  page model' = match page model with
                | home => game
                | game => game_over
                | game_over => game
                end /\
  viewAction model' <> viewAction model /\
  (viewAction model = start_game \/ viewAction model = end_game).
Proof.
  intro H. unfold viewAction in *.
  destruct (page model) eqn:Ep.
  - unfold update, bind, ret in H.
    destruct (makeRandomShape _ _ w) as [[s w1] | |]; try discriminate.
    injection H as <- _ _. cbn. repeat split; [discriminate | now left].
  - unfold update, ret, throwTypeError in H.
    split_matches H; try discriminate H.
    injection H as <- _ _. cbn. repeat split; [discriminate | now right].
  - unfold update, bind, ret in H.
    destruct (makeRandomShape _ _ w) as [[s w1] | |]; try discriminate.
    injection H as <- _ _. cbn. repeat split; [discriminate | now left].
Qed.

Lemma nav_button_cycle_witness :
  page finished = game_over /\ viewAction finished = start_game.
Proof.
  assert (H : update demoEnv (viewAction playing) playing playingWorld
              = Ok ((finished, None), playingWorld)) by (vm_compute; reflexivity).
  destruct (nav_button_cycle demoEnv playing finished None playingWorld playingWorld H)
    as [H1 _].
  split; [exact H1 | reflexivity].
Defined.
